(** * Taboo game session: a shallow embedding of [app/app.py]

    The Flask handlers of [create_app] are embedded as pure functions over
    the process-wide [GAME] dictionary (record [Game]) and the caller's
    signed cookie (record [Session]).  Every handler returns the game state
    and the cookie it leaves behind, together with the HTTP response.

    Python integers are [Z]; the [scores] dictionary is a [gmap string Z];
    lists are lists.  The sources of nondeterminism ([uuid4], the card file
    read by [load_cards], [random.shuffle]) are arguments of the handlers. *)

From stdpp Require Import base strings list gmap fin_maps.
From Stdlib Require Import ZArith Lia Ascii.

Local Open Scope string_scope.
Local Open Scope Z_scope.

(** ** Python string helpers

    A character is a code point below 256 (the Latin-1 range), so a string
    is a Python [str] over that range.  [str.strip], [str.lower] and [int]
    are given as they act on such strings. *)

Module PyStr.

(** [str.isspace] on one character, the set [str.strip] removes: TAB, LF,
    VT, FF, CR, FS, GS, RS, US and SPACE, and above code point 127 NEL
    (133) and NBSP (160). *)
Definition isspace (c : ascii) : bool :=
  let n := nat_of_ascii c in
  ((9 <=? n)%nat && (n <=? 13)%nat) || ((28 <=? n)%nat && (n <=? 32)%nat)
  || (n =? 133)%nat || (n =? 160)%nat.

Fixpoint lstrip (s : string) : string :=
  match s with
  | String c s' => if isspace c then lstrip s' else s
  | EmptyString => EmptyString
  end.

(** Right strip: a character is kept when it is not blank or when
    something remains after it. *)
Fixpoint rstrip (s : string) : string :=
  match s with
  | String c s' =>
      match rstrip s' with
      | EmptyString => if isspace c then EmptyString else String c EmptyString
      | r => String c r
      end
  | EmptyString => EmptyString
  end.

Definition strip (s : string) : string := rstrip (lstrip s).

(** [str.lower] on one character: A-Z, and the capital letters 192-222 of
    Latin-1 (215, the multiplication sign, is not one). *)
Definition lower_char (c : ascii) : ascii :=
  let n := nat_of_ascii c in
  if (((65 <=? n)%nat && (n <=? 90)%nat)
      || ((192 <=? n)%nat && (n <=? 222)%nat && negb (n =? 215)%nat))%bool
  then ascii_of_nat (n + 32) else c.

Fixpoint lower (s : string) : string :=
  match s with
  | String c s' => String (lower_char c) (lower s')
  | EmptyString => EmptyString
  end.

Definition digit (c : ascii) : option Z :=
  let n := nat_of_ascii c in
  if ((48 <=? n)%nat && (n <=? 57)%nat)%bool then Some (Z.of_nat (n - 48)) else None.

(** Digits of a decimal literal after its first digit; [prev_us] records
    that the previous character was an underscore, which must be followed
    by a digit. *)
Fixpoint digits (acc : Z) (prev_us : bool) (s : string) : option Z :=
  match s with
  | EmptyString => if prev_us then None else Some acc
  | String c s' =>
      match digit c with
      | Some d => digits (10 * acc + d) false s'
      | None =>
          if (Ascii.eqb c "_" && negb prev_us)%bool then digits acc true s' else None
      end
  end.

(** The default of [sys.get_int_max_str_digits()]: a literal with more
    digits is refused. *)
Definition max_str_digits : nat := 4300.

Fixpoint count_digits (s : string) : nat :=
  match s with
  | String c s' =>
      match digit c with
      | Some _ => S (count_digits s')
      | None => count_digits s'
      end
  | EmptyString => O
  end.

Definition unsigned (s : string) : option Z :=
  match s with
  | String c s' =>
      match digit c with
      | Some d =>
          if (max_str_digits <? count_digits s)%nat then None
          else digits d false s'
      | None => None
      end
  | EmptyString => None
  end.

(** The blanks [int] skips before and after a literal.  [int] turns the
    blanks above code point 127 (NEL, NBSP) into spaces and then skips the
    C [isspace] set: TAB, LF, VT, FF, CR and SPACE.  FS, GS, RS and US,
    which [str.strip] removes, are not skipped by [int]. *)
Definition int_isspace (c : ascii) : bool :=
  let n := nat_of_ascii c in
  ((9 <=? n)%nat && (n <=? 13)%nat) || (n =? 32)%nat
  || (n =? 133)%nat || (n =? 160)%nat.

Fixpoint int_lstrip (s : string) : string :=
  match s with
  | String c s' => if int_isspace c then int_lstrip s' else s
  | EmptyString => EmptyString
  end.

Fixpoint int_rstrip (s : string) : string :=
  match s with
  | String c s' =>
      match int_rstrip s' with
      | EmptyString => if int_isspace c then EmptyString else String c EmptyString
      | r => String c r
      end
  | EmptyString => EmptyString
  end.

(** [int(s)] for a string [s]: [None] stands for [ValueError]. *)
Definition int (s : string) : option Z :=
  match int_rstrip (int_lstrip s) with
  | String "+" s' => unsigned s'
  | String "-" s' => Z.opp <$> unsigned s'
  | s' => unsigned s'
  end.

End PyStr.

(** ** Data *)

(** [@dataclass(frozen=True) class Card] *)
Record Card := mkCard { word : string; taboo : list string }.

(** A player dictionary [{"id": .., "name": .., "team": ..}]. *)
Record Player := mkPlayer { p_id : string; p_name : string; p_team : string }.

(** The module-level dictionary [GAME]. *)
Record Game := mkGame {
  players : list Player;
  deck : list string;
  cards : list Card;
  scores : gmap string Z;
  passes : Z;
  turn_index : Z;
  time_limit : Z;
  started : bool
}.

Definition DEFAULT_TIME_LIMIT : Z := 60.

Definition zero_scores : gmap string Z := <["red" := 0]> (<["blue" := 0]> ∅).

Definition GAME : Game :=
  {| players := []; deck := []; cards := []; scores := zero_scores;
     passes := 0; turn_index := 0; time_limit := DEFAULT_TIME_LIMIT;
     started := false |}.

(** The caller's Flask [session] cookie: the keys the handlers use. *)
Record Session := mkSession { player_id : option string; error : option string }.

Definition set_error (sess : Session) (msg : string) : Session :=
  {| player_id := player_id sess; error := Some msg |}.

(** An entry of [cards.json] as [load_cards] reads it:
    [str(entry.get("word", ""))] and [str(item)] for the items of
    [entry.get("taboo", [])]. *)
Record RawEntry := mkRaw { raw_word : string; raw_taboo : list string }.

Definition nonempty (s : string) : bool :=
  match s with EmptyString => false | _ => true end.

Definition load_entry (e : RawEntry) : option Card :=
  let w := PyStr.strip (raw_word e) in
  let t := List.filter nonempty (PyStr.strip <$> raw_taboo e) in
  match t with
  | [] => None
  | _ :: _ => if nonempty w then Some (mkCard w t) else None
  end.

Definition load_cards (raw : list RawEntry) : list Card :=
  omap load_entry raw.

(** ** Responses *)

Inductive Endpoint := ep_index | ep_game.

Record IndexCtx := mkIndexCtx {
  ix_time_limit : Z;
  ix_players : list Player;
  ix_can_start : bool;
  ix_error : option string;
  ix_current_user : option Player;
  ix_started : bool
}.

(** The keyword arguments of [render_template("game.html", ...)]. *)
Record GameCtx := mkGameCtx {
  card : option Card;
  ctx_scores : gmap string Z;
  ctx_passes : Z;
  ctx_time_limit : Z;
  current_player : Player;
  opposite_team : string;
  can_view : bool;
  current_user : option Player
}.

Inductive Response :=
| Redirect (e : Endpoint)
| RenderIndex (ctx : IndexCtx)
| RenderGame (ctx : GameCtx)
| Raised (exc : string).

(** What a handler leaves behind. *)
Record Outcome := mkOutcome { game_of : Game; session_of : Session; response : Response }.

(** ** Shared helpers of the handlers *)

(** [get_current_user()]: the first player whose id is the cookie's
    [player_id]; a missing or empty [player_id] gives [None]. *)
Definition get_current_user (G : Game) (sess : Session) : option Player :=
  match player_id sess with
  | None => None
  | Some pid =>
      if nonempty pid then List.find (fun p => String.eqb (p_id p) pid) (players G)
      else None
  end.

(** [{player.get("team") for player in players}] *)
Definition teams (G : Game) : gset string := list_to_set (p_team <$> players G).

(** [{"red", "blue"}.issubset(teams)] *)
Definition both_teams (G : Game) : bool :=
  bool_decide (({["red"; "blue"]} : gset string) ⊆ teams G).

(** [players[GAME["turn_index"] % len(players)]]; [None] only for an empty
    roster, which every handler tests first. *)
Definition active_player (G : Game) : option Player :=
  players G !! Z.to_nat (turn_index G `mod` Z.of_nat (length (players G))).

(** [session.get("player_id") != current_player.get("id")] *)
Definition not_requester (sess : Session) (cp : Player) : bool :=
  match player_id sess with
  | Some pid => negb (String.eqb pid (p_id cp))
  | None => true
  end.

(** [scores.get(team, 0)] *)
Definition score (sc : gmap string Z) (t : string) : Z := default 0 (sc !! t).

(** ** The handlers *)

(** [GET /] *)
Definition index (G : Game) (sess : Session) : Outcome :=
  let sess' := {| player_id := player_id sess; error := None |} in
  let can_start := ((2 <=? length (players G))%nat && both_teams G)%bool in
  mkOutcome G sess'
    (RenderIndex
       {| ix_time_limit := time_limit G; ix_players := players G;
          ix_can_start := can_start; ix_error := error sess;
          ix_current_user := get_current_user G sess';
          ix_started := started G |}).

(** [POST /join]; [form_name] and [form_team] are the form fields when
    present, [uuid] the value of [uuid4().hex]. *)
Definition join (G : Game) (sess : Session)
    (form_name form_team : option string) (uuid : string) : Outcome :=
  if started G then
    mkOutcome G (set_error sess "Round already started. End round to join.")
      (Redirect ep_index)
  else
    let name := PyStr.strip (default "" form_name) in
    let team := PyStr.lower (PyStr.strip (default "" form_team)) in
    if (negb (nonempty name)
        || negb (String.eqb team "red" || String.eqb team "blue"))%bool then
      mkOutcome G (set_error sess "Enter a player name and choose a team.")
        (Redirect ep_index)
    else
      let player := {| p_id := uuid; p_name := name; p_team := team |} in
      mkOutcome
        {| players := players G ++ [player]; deck := deck G; cards := cards G;
           scores := scores G; passes := passes G; turn_index := turn_index G;
           time_limit := time_limit G; started := started G |}
        {| player_id := Some uuid; error := error sess |}
        (Redirect ep_index).

(** [int(request.form.get("time_limit", DEFAULT_TIME_LIMIT))] *)
Definition parse_time_limit (form_time_limit : option string) : option Z :=
  match form_time_limit with
  | Some s => PyStr.int s
  | None => Some DEFAULT_TIME_LIMIT
  end.

(** [POST /start]; [raw] is the content of [cards.json] and [shuffle] the
    permutation [random.shuffle] applies.  The assignments to [GAME] are
    made one after the other, so the state at the point where [int] raises
    already holds the new deck, cards, scores, passes and turn index. *)
Definition start_game (G : Game) (sess : Session)
    (form_time_limit : option string) (raw : list RawEntry)
    (shuffle : list string → list string) : Outcome :=
  if (length (players G) <? 2)%nat then
    mkOutcome G (set_error sess "Add at least two players to start.")
      (Redirect ep_index)
  else if negb (both_teams G) then
    mkOutcome G (set_error sess "Add at least one player to each team.")
      (Redirect ep_index)
  else
    let cs := load_cards raw in
    match cs with
    | [] =>
        mkOutcome G (set_error sess "No cards available in cards.json.")
          (Redirect ep_index)
    | _ :: _ =>
        let d := shuffle (word <$> cs) in
        match parse_time_limit form_time_limit with
        | None =>
            mkOutcome
              {| players := players G; deck := d; cards := cs;
                 scores := zero_scores; passes := 0; turn_index := 0;
                 time_limit := time_limit G; started := started G |}
              sess (Raised "ValueError")
        | Some tl =>
            mkOutcome
              {| players := players G; deck := d; cards := cs;
                 scores := zero_scores; passes := 0; turn_index := 0;
                 time_limit := tl; started := true |}
              sess (Redirect ep_game)
        end
    end.

(** [GET /game]: read-only. *)
Definition game (G : Game) (sess : Session) : Outcome :=
  if negb (started G) then mkOutcome G sess (Redirect ep_index)
  else
    match players G, deck G with
    | [], _ => mkOutcome G sess (Redirect ep_index)
    | _ :: _, [] => mkOutcome G sess (Redirect ep_index)
    | _ :: _, current_word :: _ =>
        match active_player G with
        | None => mkOutcome G sess (Raised "IndexError")
        | Some cp =>
            let opp := if String.eqb (p_team cp) "red" then "blue" else "red" in
            let cu := get_current_user G sess in
            let cv :=
              match cu with
              | Some u =>
                  (String.eqb (p_id u) (p_id cp) || String.eqb (p_team u) opp)%bool
              | None => false
              end in
            let card_data :=
              List.find (fun c => String.eqb (word c) current_word) (cards G) in
            mkOutcome G sess
              (RenderGame
                 {| card := card_data; ctx_scores := scores G;
                    ctx_passes := passes G; ctx_time_limit := time_limit G;
                    current_player := cp; opposite_team := opp;
                    can_view := cv; current_user := cu |})
        end
    end.

(** [action_type == k] for [action_type = request.form.get("action")]. *)
Definition is_action (action_type : option string) (k : string) : bool :=
  match action_type with
  | Some s => String.eqb s k
  | None => false
  end.

(** The block of [action] after the requester test: [deck.pop(0)], the
    three-way branch on [action_type], and the two write-backs. *)
Definition apply_action (G : Game) (cp : Player) (current : string)
    (rest : list string) (action_type : option string) : Game :=
  let team := p_team cp in
  if is_action action_type "correct" then
    {| players := players G; deck := rest; cards := cards G;
       scores := <[team := score (scores G) team + 1]> (scores G);
       passes := passes G; turn_index := turn_index G;
       time_limit := time_limit G; started := started G |}
  else if is_action action_type "taboo" then
    {| players := players G; deck := rest; cards := cards G;
       scores := <[team := Z.max 0 (score (scores G) team - 1)]> (scores G);
       passes := passes G; turn_index := turn_index G;
       time_limit := time_limit G; started := started G |}
  else if is_action action_type "pass" then
    {| players := players G; deck := rest ++ [current]; cards := cards G;
       scores := scores G; passes := passes G + 1;
       turn_index := turn_index G; time_limit := time_limit G;
       started := started G |}
  else
    {| players := players G; deck := rest; cards := cards G;
       scores := scores G; passes := passes G; turn_index := turn_index G;
       time_limit := time_limit G; started := started G |}.

(** [POST /action] *)
Definition action (G : Game) (sess : Session) (action_type : option string)
    : Outcome :=
  match players G, deck G with
  | [], _ => mkOutcome G sess (Redirect ep_index)
  | _ :: _, [] => mkOutcome G sess (Redirect ep_index)
  | _ :: _, current :: rest =>
      match active_player G with
      | None => mkOutcome G sess (Raised "IndexError")
      | Some cp =>
          if not_requester sess cp then mkOutcome G sess (Redirect ep_game)
          else
            let G' := apply_action G cp current rest action_type in
            mkOutcome G' sess
              (match deck G' with
               | [] => Redirect ep_index
               | _ :: _ => Redirect ep_game
               end)
      end
  end.

(** [POST /turn/next] *)
Definition next_turn (G : Game) (sess : Session) : Outcome :=
  match players G with
  | [] => mkOutcome G sess (Redirect ep_index)
  | _ :: _ =>
      match active_player G with
      | None => mkOutcome G sess (Raised "IndexError")
      | Some cp =>
          if not_requester sess cp then mkOutcome G sess (Redirect ep_game)
          else
            mkOutcome
              {| players := players G; deck := deck G; cards := cards G;
                 scores := scores G; passes := passes G;
                 turn_index :=
                   (turn_index G + 1) `mod` Z.of_nat (length (players G));
                 time_limit := time_limit G; started := started G |}
              sess (Redirect ep_game)
      end
  end.

(** [POST /reset] *)
Definition reset (G : Game) (sess : Session) : Outcome :=
  mkOutcome GAME {| player_id := None; error := None |} (Redirect ep_index).

(** ** The page shown for a game context *)

(** What a requester gets to read on the game page. *)
Record View := mkView {
  shown_card : option Card;
  shown_scores : gmap string Z;
  shown_passes : Z;
  shown_time_limit : Z;
  shown_player : Player
}.

(** Modelled from the spec: the template [game.html], which turns the
    context of [game] into the page, is not among the sources.  Following
    section 4.5, the page carries the current word only when [can_view] is
    set; scores, pass count, active player and time limit stay visible. *)
Definition game_html (ctx : GameCtx) : View :=
  {| shown_card := if can_view ctx then card ctx else None;
     shown_scores := ctx_scores ctx;
     shown_passes := ctx_passes ctx;
     shown_time_limit := ctx_time_limit ctx;
     shown_player := current_player ctx |}.

(** ** Requests and reachable states *)

Inductive Request :=
| ReqIndex
| ReqJoin (form_name form_team : option string) (uuid : string)
| ReqStart (form_time_limit : option string) (raw : list RawEntry)
    (shuffle : list string → list string)
| ReqGame
| ReqAction (action_type : option string)
| ReqNextTurn
| ReqReset.

Definition handle (G : Game) (sess : Session) (r : Request) : Outcome :=
  match r with
  | ReqIndex => index G sess
  | ReqJoin n t u => join G sess n t u
  | ReqStart tl raw sh => start_game G sess tl raw sh
  | ReqGame => game G sess
  | ReqAction a => action G sess a
  | ReqNextTurn => next_turn G sess
  | ReqReset => reset G sess
  end.

(** [random.shuffle] permutes its argument. *)
Definition wf_request (r : Request) : Prop :=
  match r with
  | ReqStart _ _ sh => ∀ l, sh l ≡ₚ l
  | _ => True
  end.

(** States of [GAME] the process can be in: the initial dictionary, and
    whatever a request leaves behind, from any caller's cookie. *)
Inductive reachable : Game → Prop :=
| reach_init : reachable GAME
| reach_step G sess r :
    reachable G → wf_request r → reachable (game_of (handle G sess r)).

(** A run of [POST /action] requests, each with its caller's cookie. *)
Fixpoint run_actions (G : Game) (calls : list (Session * option string)) : Game :=
  match calls with
  | [] => G
  | (sess, a) :: calls' => run_actions (game_of (action G sess a)) calls'
  end.

(** The requester holds the cookie of the active clue-giver [cp]. *)
Definition is_clue_giver (G : Game) (sess : Session) (cp : Player) : Prop :=
  active_player G = Some cp ∧ player_id sess = Some (p_id cp).

(** ** Invariant of the scoreboard *)

(** The [scores] dictionary has exactly the keys "red" and "blue", both
    with non-negative values. *)
Definition scores_ok (G : Game) : Prop :=
  ∃ r b : Z, scores G = <["red" := r]> (<["blue" := b]> ∅) ∧ 0 ≤ r ∧ 0 ≤ b.

(** Every registered player is on one of the two teams. *)
Definition teams_ok (G : Game) : Prop :=
  ∀ p, p ∈ players G → p_team p = "red" ∨ p_team p = "blue".

Definition inv (G : Game) : Prop := scores_ok G ∧ teams_ok G.

(** ** Rejections of [start_game] *)

Inductive StartError := NotEnoughPlayers | TeamsUnbalanced | EmptyCatalog.

(** The reason of a rejection, read off the outcome: a redirect to the
    index page with one of the three messages of [start_game] in the
    cookie. *)
Definition start_error (out : Outcome) : option StartError :=
  match response out, error (session_of out) with
  | Redirect ep_index, Some msg =>
      if String.eqb msg "Add at least two players to start." then
        Some NotEnoughPlayers
      else if String.eqb msg "Add at least one player to each team." then
        Some TeamsUnbalanced
      else if String.eqb msg "No cards available in cards.json." then
        Some EmptyCatalog
      else None
  | _, _ => None
  end.

(** ** Sample sessions

    Three players, their cookies, a card file and a few states of [GAME]
    used to run the handlers. *)

Module Sample.

Definition ann : Player := mkPlayer "a1" "Ann" "red".
Definition bob : Player := mkPlayer "b1" "Bob" "blue".
Definition cat : Player := mkPlayer "c1" "Cat" "red".

Definition cookie (p : Player) : Session := mkSession (Some (p_id p)) None.

Definition catalog : list RawEntry :=
  [ mkRaw " apple " ["fruit"; " "; "tree"];
    mkRaw "" ["nothing"];
    mkRaw "river" ["water"];
    mkRaw "cloud" [] ].

Definition apple : Card := mkCard "apple" ["fruit"; "tree"].
Definition river : Card := mkCard "river" ["water"].

(** A round in progress, Ann giving clues, Cat on her team. *)
Definition round : Game :=
  {| players := [ann; bob; cat]; deck := ["apple"; "river"];
     cards := [apple; river]; scores := zero_scores; passes := 0;
     turn_index := 0; time_limit := 60; started := true |}.

(** The state after Ann and Bob joined and the round was started with
    the sample card file, the shuffle leaving the order as it is. *)
Definition played : Game :=
  let G1 := game_of (handle GAME (mkSession None None)
                       (ReqJoin (Some "Ann") (Some " Red") "a1")) in
  let G2 := game_of (handle G1 (mkSession None None)
                       (ReqJoin (Some "Bob") (Some "blue") "b1")) in
  game_of (handle G2 (cookie bob) (ReqStart (Some "90") catalog (fun l => l))).

(** The round continued down to its last card: Ann passes on "apple",
    scores "river" and hands the turn to Bob.  The deck is ["apple"], red
    has one point, one pass is counted and the turn index is 1. *)
Definition last_card : Game :=
  let G1 := game_of (handle played (cookie ann) (ReqAction (Some "pass"))) in
  let G2 := game_of (handle G1 (cookie ann) (ReqAction (Some "correct"))) in
  game_of (handle G2 (cookie ann) ReqNextTurn).

End Sample.

(** ** Further invariants of the session *)

(** A card as [load_cards] keeps it: the word and every taboo word are
    stripped and non-empty, and there is at least one taboo word. *)
Definition valid_card (c : Card) : Prop :=
  word c ≠ "" ∧ PyStr.strip (word c) = word c
  ∧ taboo c ≠ []
  ∧ ∀ t, t ∈ taboo c → t ≠ "" ∧ PyStr.strip t = t.

(** Every player has a non-empty, stripped name. *)
Definition names_ok (G : Game) : Prop :=
  ∀ p, p ∈ players G → p_name p ≠ "" ∧ PyStr.strip (p_name p) = p_name p.

(** The turn index is a position of the roster (or 0 on an empty one). *)
Definition turn_ok (G : Game) : Prop :=
  0 ≤ turn_index G
  ∧ (turn_index G = 0 ∨ turn_index G < Z.of_nat (length (players G))).

(** Every word of the deck is the word of a card of the snapshot, the
    snapshot holds valid cards only, and the deck is no longer than it. *)
Definition deck_ok (G : Game) : Prop :=
  (∀ w, w ∈ deck G → ∃ c, c ∈ cards G ∧ word c = w)
  ∧ (∀ c, c ∈ cards G → valid_card c)
  ∧ (length (deck G) ≤ length (cards G))%nat.

(** A started round has a roster that could start it. *)
Definition started_ok (G : Game) : Prop :=
  started G = true → (2 ≤ length (players G))%nat ∧ both_teams G = true.

Definition session_inv (G : Game) : Prop :=
  names_ok G ∧ turn_ok G ∧ deck_ok G ∧ started_ok G ∧ 0 ≤ passes G.

(** The cookie of whoever is the clue-giver, and the hand-over of the
    turn by that player. *)
Definition clue_giver_cookie (G : Game) : Session :=
  {| player_id := p_id <$> active_player G; error := None |}.

Definition pass_turn (G : Game) : Game :=
  game_of (next_turn G (clue_giver_cookie G)).

(** * Properties *)

(** ** Basic facts about the helpers *)

Lemma is_action_true (a : option string) (k : string) :
  is_action a k = true ↔ a = Some k.
Proof.
  destruct a as [s|]; simpl.
  - rewrite String.eqb_eq. split; [intros ->; reflexivity | intros [= ->]; reflexivity].
  - split; discriminate.
Qed.

Lemma is_action_false (a : option string) (k : string) :
  is_action a k = false ↔ a ≠ Some k.
Proof.
  rewrite <- is_action_true. destruct (is_action a k); split; congruence.
Qed.


(** A non-empty roster always has an active player: the index is taken
    modulo the roster's length. *)
Lemma active_player_nonempty (G : Game) :
  players G ≠ [] → ∃ cp, active_player G = Some cp.
Proof.
  intros Hne. unfold active_player.
  apply lookup_lt_is_Some_2.
  assert (0 < Z.of_nat (length (players G))) as Hlen.
  { destruct (players G); [congruence | simpl length; lia]. }
  pose proof (Z.mod_pos_bound (turn_index G) _ Hlen). lia.
Qed.

Lemma active_player_roster (G : Game) (cp : Player) :
  active_player G = Some cp → ∃ p ps, players G = p :: ps.
Proof.
  unfold active_player. destruct (players G) as [|p ps]; [|eauto].
  rewrite lookup_nil. discriminate.
Qed.

Lemma active_player_elem (G : Game) (cp : Player) :
  active_player G = Some cp → cp ∈ players G.
Proof. unfold active_player. apply list_elem_of_lookup_2. Qed.

Lemma not_requester_false (sess : Session) (cp : Player) :
  not_requester sess cp = false ↔ player_id sess = Some (p_id cp).
Proof.
  unfold not_requester. destruct (player_id sess) as [pid|].
  - rewrite negb_false_iff, String.eqb_eq.
    split; [intros ->; reflexivity | intros [= ->]; reflexivity].
  - split; discriminate.
Qed.

Lemma not_requester_true (sess : Session) (cp : Player) :
  not_requester sess cp = true ↔ player_id sess ≠ Some (p_id cp).
Proof.
  rewrite <- not_requester_false.
  destruct (not_requester sess cp); split; congruence.
Qed.

(** The user a cookie resolves to is a registered player carrying the
    cookie's id. *)
Lemma get_current_user_spec (G : Game) (sess : Session) (u : Player) :
  get_current_user G sess = Some u →
  player_id sess = Some (p_id u) ∧ u ∈ players G.
Proof.
  unfold get_current_user. destruct (player_id sess) as [pid|]; [|discriminate].
  destruct (nonempty pid); [|discriminate].
  intros Hf. apply find_some in Hf as [Hin Heq].
  apply String.eqb_eq in Heq. subst pid.
  split; [reflexivity | by apply list_elem_of_In].
Qed.

(** Both team names occur in the roster. *)
Lemma both_teams_spec (G : Game) :
  both_teams G = true ↔
  (∃ p, p ∈ players G ∧ p_team p = "red") ∧ (∃ p, p ∈ players G ∧ p_team p = "blue").
Proof.
  unfold both_teams, teams. rewrite bool_decide_eq_true.
  split.
  - intros Hsub. split.
    + assert ("red" ∈ (list_to_set (p_team <$> players G) : gset string)) as H
        by (apply Hsub; set_solver).
      rewrite elem_of_list_to_set, list_elem_of_fmap in H.
      destruct H as (p & Hp & Hin). eauto.
    + assert ("blue" ∈ (list_to_set (p_team <$> players G) : gset string)) as H
        by (apply Hsub; set_solver).
      rewrite elem_of_list_to_set, list_elem_of_fmap in H.
      destruct H as (p & Hp & Hin). eauto.
  - intros [(p & Hp & Hr) (q & Hq & Hb)] x Hx.
    rewrite elem_of_list_to_set, list_elem_of_fmap.
    apply elem_of_union in Hx as [Hx|Hx]; apply elem_of_singleton in Hx; subst x; eauto.
Qed.

(** What [action] does for the active clue-giver on a non-empty deck. *)
Lemma action_clue_giver (G : Game) (sess : Session) (cp : Player)
    (w : string) (rest : list string) (a : option string) :
  is_clue_giver G sess cp → deck G = w :: rest →
  action G sess a =
  mkOutcome (apply_action G cp w rest a) sess
    (match deck (apply_action G cp w rest a) with
     | [] => Redirect ep_index
     | _ :: _ => Redirect ep_game
     end).
Proof.
  intros [Hact Hid] Hdeck. unfold action.
  destruct (active_player_roster _ _ Hact) as (p & ps & Hps).
  rewrite Hps, Hdeck, Hact.
  apply not_requester_false in Hid. rewrite Hid. reflexivity.
Qed.

(** With an empty deck [action] sends every caller back to the index page
    and changes nothing. *)
Lemma action_empty_deck (G : Game) (sess : Session) (a : option string) :
  deck G = [] → action G sess a = mkOutcome G sess (Redirect ep_index).
Proof.
  intros Hdeck. unfold action. rewrite Hdeck. by destruct (players G).
Qed.

Lemma run_actions_empty_deck (G : Game) (calls : list (Session * option string)) :
  deck G = [] → run_actions G calls = G.
Proof.
  intros Hdeck. induction calls as [|[sess a] calls IH]; simpl; [reflexivity|].
  rewrite action_empty_deck by assumption. exact IH.
Qed.

(** The sample states are states the session can be in. *)
Lemma sample_played_reachable : reachable Sample.played.
Proof.
  unfold Sample.played. repeat apply reach_step; try exact I.
  - exact reach_init.
  - intros l. reflexivity.
Qed.

Lemma sample_last_card_reachable : reachable Sample.last_card.
Proof.
  unfold Sample.last_card. cbv zeta.
  do 3 (apply reach_step; [|exact I]).
  exact sample_played_reachable.
Qed.

Lemma sample_round_reachable : reachable Sample.round.
Proof.
  pose (G1 := game_of (handle GAME (mkSession None None)
                         (ReqJoin (Some "Ann") (Some "red") "a1"))).
  pose (G2 := game_of (handle G1 (mkSession None None)
                         (ReqJoin (Some "Bob") (Some "blue") "b1"))).
  pose (G3 := game_of (handle G2 (mkSession None None)
                         (ReqJoin (Some "Cat") (Some "red") "c1"))).
  assert (reachable (game_of (handle G3 (Sample.cookie Sample.cat)
                               (ReqStart None Sample.catalog (fun l => l)))))
    as Hreach.
  { apply reach_step; [|intros l; reflexivity].
    do 3 (apply reach_step; [|exact I]). exact reach_init. }
  assert (game_of (handle G3 (Sample.cookie Sample.cat)
                     (ReqStart None Sample.catalog (fun l => l))) = Sample.round)
    as Heq by (vm_compute; reflexivity).
  by rewrite <- Heq.
Qed.

(** ** The blanks of [strip] and of [int] *)

(** [str.strip] removes the separators FS-US and NBSP; [int] skips NBSP but
    not the separators, so a text may parse only once stripped. *)
Example int_does_not_skip_separators :
  PyStr.int (String (ascii_of_nat 28) "5") = None
  ∧ PyStr.int (PyStr.strip (String (ascii_of_nat 28) "5")) = Some 5
  ∧ PyStr.int (String (ascii_of_nat 160) "5") = Some 5
  ∧ PyStr.int " 90 " = Some 90
  ∧ PyStr.int "1_0" = Some 10 ∧ PyStr.int "1__0" = None
  ∧ PyStr.int "+ 5" = None ∧ PyStr.int "" = None.
Proof. repeat split. Qed.

(** A name or a card word made of an NBSP is blank; a team is matched
    whatever its case. *)
Example nbsp_is_blank :
  game_of (join GAME (mkSession None None) (Some (String (ascii_of_nat 160) ""))
             (Some "red") "a1") = GAME
  ∧ game_of (join GAME (mkSession None None) (Some "Ann")
               (Some (String (ascii_of_nat 160) "red")) "a1")
    = game_of (join GAME (mkSession None None) (Some "Ann") (Some "RED") "a1")
  ∧ load_entry (mkRaw (String (ascii_of_nat 160) "") ["x"]) = None
  ∧ load_entry (mkRaw "word" [String (ascii_of_nat 133) " "]) = None.
Proof. repeat split. Qed.

(** ** Visibility of the secret word *)



(** The same request evaluated: Cat's page has [can_view] unset and shows
    no card, Bob's (opposite team) and Ann's (clue-giver) show the card. *)
Example game_page_of_teammate :
  ∃ ctx, response (game Sample.round (Sample.cookie Sample.cat)) = RenderGame ctx
         ∧ can_view ctx = false ∧ shown_card (game_html ctx) = None.
Proof. eexists. repeat split. Qed.

Example game_page_of_opponent_and_clue_giver :
  (∃ ctx, response (game Sample.round (Sample.cookie Sample.bob)) = RenderGame ctx
          ∧ can_view ctx = true ∧ shown_card (game_html ctx) = Some Sample.apple)
  ∧ (∃ ctx, response (game Sample.round (Sample.cookie Sample.ann)) = RenderGame ctx
            ∧ can_view ctx = true ∧ shown_card (game_html ctx) = Some Sample.apple).
Proof. split; eexists; repeat split. Qed.

(** ** Requests from callers other than the clue-giver *)

(** C4: [action] and [next_turn] called with a cookie whose [player_id] is
    not the id of the active clue-giver leave [GAME] as it is, so scores,
    deck, pass counter and turn index are unchanged. *)
Theorem C4_non_clue_giver_is_noop (G : Game) (sess : Session) (a : option string) :
  (∀ cp, active_player G = Some cp → player_id sess ≠ Some (p_id cp)) →
  game_of (action G sess a) = G
  ∧ game_of (next_turn G sess) = G
  ∧ scores (game_of (action G sess a)) = scores G
  ∧ deck (game_of (action G sess a)) = deck G
  ∧ passes (game_of (action G sess a)) = passes G
  ∧ turn_index (game_of (action G sess a)) = turn_index G
  ∧ turn_index (game_of (next_turn G sess)) = turn_index G.
Proof.
  intros Hnot.
  assert (game_of (action G sess a) = G) as Ha.
  { unfold action. destruct (players G) as [|p ps]; [reflexivity|].
    destruct (deck G) as [|w rest]; [reflexivity|].
    destruct (active_player G) as [cp|] eqn:Hact; [|reflexivity].
    specialize (Hnot cp eq_refl). apply not_requester_true in Hnot.
    rewrite Hnot. reflexivity. }
  assert (game_of (next_turn G sess) = G) as Hn.
  { unfold next_turn. destruct (players G) as [|p ps]; [reflexivity|].
    destruct (active_player G) as [cp|] eqn:Hact; [|reflexivity].
    specialize (Hnot cp eq_refl). apply not_requester_true in Hnot.
    rewrite Hnot. reflexivity. }
  rewrite Ha, Hn. repeat split.
Qed.

(** Bob sends a "correct" while Ann is the clue-giver. *)
Lemma C4_non_clue_giver_is_noop_witness :
  game_of (action Sample.round (Sample.cookie Sample.bob) (Some "correct")) = Sample.round
  ∧ game_of (next_turn Sample.round (Sample.cookie Sample.bob)) = Sample.round.
Proof.
  pose proof (C4_non_clue_giver_is_noop Sample.round (Sample.cookie Sample.bob)
                (Some "correct")) as H.
  assert (∀ cp, active_player Sample.round = Some cp →
                player_id (Sample.cookie Sample.bob) ≠ Some (p_id cp)) as Hnot.
  { intros cp Hcp. injection Hcp as <-. discriminate. }
  destruct (H Hnot) as (Ha & Hn & _). split; assumption.
Defined.

(** ** The deck under the three actions *)

(** C7: a "pass" by the clue-giver on a non-empty deck moves the front word
    to the back, every other word one place forward, keeps the length and
    adds one to the pass counter; "correct" and "taboo" drop the front
    word, so the deck is one shorter. *)
Theorem C7_pass_recycles_front_word (G : Game) (sess : Session) (cp : Player)
    (w : string) (rest : list string) :
  is_clue_giver G sess cp → deck G = w :: rest →
  (let G' := game_of (action G sess (Some "pass")) in
   deck G' = (rest ++ [w])%list
   ∧ length (deck G') = length (deck G)
   ∧ (∀ i, (i < length rest)%nat → deck G' !! i = deck G !! S i)
   ∧ deck G' !! length rest = Some w
   ∧ passes G' = passes G + 1)
  ∧ (∀ a, a = Some "correct" ∨ a = Some "taboo" →
       let G' := game_of (action G sess a) in
       deck G' = rest
       ∧ S (length (deck G')) = length (deck G)
       ∧ passes G' = passes G).
Proof.
  intros Hcg Hdeck. split.
  - rewrite (action_clue_giver G sess cp w rest _ Hcg Hdeck). simpl.
    rewrite Hdeck. repeat split.
    + rewrite length_app. simpl. lia.
    + intros i Hi. simpl. by apply lookup_app_l.
    + rewrite lookup_app_r by lia. by rewrite Nat.sub_diag.
  - intros a Ha.
    rewrite (action_clue_giver G sess cp w rest _ Hcg Hdeck).
    rewrite Hdeck. destruct Ha as [-> | ->]; simpl; repeat split.
Qed.

(** Ann passes on "apple" with "river" behind it. *)
Lemma C7_pass_recycles_front_word_witness :
  deck (game_of (action Sample.round (Sample.cookie Sample.ann) (Some "pass")))
  = ["river"; "apple"]
  ∧ passes (game_of (action Sample.round (Sample.cookie Sample.ann) (Some "pass"))) = 1.
Proof.
  assert (is_clue_giver Sample.round (Sample.cookie Sample.ann) Sample.ann) as Hcg
    by (split; reflexivity).
  destruct (C7_pass_recycles_front_word Sample.round (Sample.cookie Sample.ann)
              Sample.ann "apple" ["river"] Hcg eq_refl) as [(Hd & _ & _ & _ & Hp) _].
  split; [exact Hd | exact Hp].
Defined.

(** C10: an [action] by the clue-giver on a non-empty deck whose
    [action_type] is none of "correct", "taboo" and "pass" (or is absent)
    still pops the front word and drops it: the deck is one shorter, and
    scores and pass counter, like every other field, stay as they were. *)
Theorem C10_unknown_action_discards_card (G : Game) (sess : Session) (cp : Player)
    (w : string) (rest : list string) (a : option string) :
  is_clue_giver G sess cp → deck G = w :: rest →
  a ≠ Some "correct" → a ≠ Some "taboo" → a ≠ Some "pass" →
  let G' := game_of (action G sess a) in
  deck G' = rest
  ∧ S (length (deck G')) = length (deck G)
  ∧ scores G' = scores G
  ∧ passes G' = passes G
  ∧ players G' = players G ∧ cards G' = cards G
  ∧ turn_index G' = turn_index G ∧ time_limit G' = time_limit G
  ∧ started G' = started G.
Proof.
  intros Hcg Hdeck Hc Ht Hp.
  rewrite (action_clue_giver G sess cp w rest _ Hcg Hdeck).
  apply is_action_false in Hc, Ht, Hp.
  unfold apply_action. rewrite Hc, Ht, Hp, Hdeck. simpl. repeat split.
Qed.

(** Ann posts the form with [action=skip]. *)
Lemma C10_unknown_action_discards_card_witness :
  let G' := game_of (action Sample.round (Sample.cookie Sample.ann) (Some "skip")) in
  deck G' = ["river"] ∧ scores G' = scores Sample.round
  ∧ passes G' = passes Sample.round.
Proof.
  assert (is_clue_giver Sample.round (Sample.cookie Sample.ann) Sample.ann) as Hcg
    by (split; reflexivity).
  destruct (C10_unknown_action_discards_card Sample.round (Sample.cookie Sample.ann)
              Sample.ann "apple" ["river"] (Some "skip") Hcg eq_refl)
    as (Hd & _ & Hs & Hp & _); [discriminate..|].
  split; [exact Hd | split; [exact Hs | exact Hp]].
Defined.

(** ** The end of the deck *)

(** Bob, the clue-giver, scores the last card of the sample round, a state
    reached by joins, a start and three requests of Ann: the deck is empty
    afterwards and [started] is still set. *)
Lemma C2_counterexample :
  reachable Sample.last_card
  ∧ is_clue_giver Sample.last_card (Sample.cookie Sample.bob) Sample.bob
  ∧ deck Sample.last_card = ["apple"]
  ∧ deck (game_of (action Sample.last_card (Sample.cookie Sample.bob)
                     (Some "correct"))) = []
  ∧ started (game_of (action Sample.last_card (Sample.cookie Sample.bob)
                        (Some "correct"))) ≠ false.
Proof.
  split; [exact sample_last_card_reachable|]. repeat split.
  intros H. vm_compute in H. discriminate H.
Qed.

(** C2, amended: an [action] of the clue-giver other than "pass" on a
    one-card deck empties the deck and answers with a redirect to the index
    page, but [started] keeps its value; afterwards every [action] call,
    from any caller, is answered by that redirect and changes nothing, so
    the scores reached are kept. *)
Theorem C2_last_card_keeps_started (G : Game) (sess : Session) (cp : Player)
    (w : string) (a : option string) :
  is_clue_giver G sess cp → deck G = [w] → a ≠ Some "pass" →
  let G' := game_of (action G sess a) in
  deck G' = []
  ∧ started G' = started G
  ∧ response (action G sess a) = Redirect ep_index
  ∧ (∀ sess' a', action G' sess' a' = mkOutcome G' sess' (Redirect ep_index))
  ∧ (∀ calls, run_actions G' calls = G')
  ∧ (∀ calls, scores (run_actions G' calls) = scores G').
Proof.
  intros Hcg Hdeck Hp. apply is_action_false in Hp.
  rewrite (action_clue_giver G sess cp w [] a Hcg Hdeck).
  assert (deck (apply_action G cp w [] a) = []) as Hd.
  { unfold apply_action. rewrite Hp.
    destruct (is_action a "correct"); [reflexivity|].
    destruct (is_action a "taboo"); reflexivity. }
  assert (started (apply_action G cp w [] a) = started G) as Hs.
  { unfold apply_action. rewrite Hp.
    destruct (is_action a "correct"); [reflexivity|].
    destruct (is_action a "taboo"); reflexivity. }
  simpl. rewrite Hd. repeat split; try assumption.
  - intros sess' a'. by apply action_empty_deck.
  - intros calls. by apply run_actions_empty_deck.
  - intros calls. by rewrite run_actions_empty_deck.
Qed.

(** Bob scores the last card, then Ann and Bob keep posting actions. *)
Lemma C2_last_card_keeps_started_witness :
  let G' := game_of (action Sample.last_card (Sample.cookie Sample.bob)
                       (Some "correct")) in
  deck G' = [] ∧ started G' = true
  ∧ run_actions G' [(Sample.cookie Sample.ann, Some "taboo");
                    (Sample.cookie Sample.bob, Some "correct")] = G'.
Proof.
  assert (is_clue_giver Sample.last_card (Sample.cookie Sample.bob) Sample.bob) as Hcg
    by (split; reflexivity).
  destruct (C2_last_card_keeps_started Sample.last_card (Sample.cookie Sample.bob)
              Sample.bob "apple" (Some "correct") Hcg eq_refl)
    as (Hd & Hs & _ & _ & Hrun & _); [discriminate|].
  split; [exact Hd | split; [exact Hs | apply Hrun]].
Defined.

(** A "pass" on a one-card deck puts the card back: the deck is not
    exhausted. *)
Example pass_on_last_card :
  deck (game_of (action Sample.last_card (Sample.cookie Sample.bob) (Some "pass")))
  = ["apple"].
Proof. reflexivity. Qed.

(** ** Scores *)

Lemma scores_ok_insert (sc : gmap string Z) (t : string) (v : Z) :
  (∃ r b : Z, sc = <["red" := r]> (<["blue" := b]> ∅) ∧ 0 ≤ r ∧ 0 ≤ b) →
  t = "red" ∨ t = "blue" → 0 ≤ v →
  ∃ r b : Z, <[t := v]> sc = <["red" := r]> (<["blue" := b]> ∅) ∧ 0 ≤ r ∧ 0 ≤ b.
Proof.
  intros (r & b & -> & Hr & Hb) [-> | ->] Hv.
  - exists v, b. by rewrite insert_insert_eq.
  - exists r, v. rewrite insert_insert_ne by discriminate.
    by rewrite insert_insert_eq.
Qed.

Lemma score_non_negative (G : Game) (t : string) :
  scores_ok G → 0 ≤ score (scores G) t.
Proof.
  intros (r & b & -> & Hr & Hb). unfold score.
  destruct (decide (t = "red")) as [-> | Hnr].
  - by rewrite lookup_insert_eq.
  - rewrite lookup_insert_ne by congruence.
    destruct (decide (t = "blue")) as [-> | Hnb].
    + by rewrite lookup_insert_eq.
    + rewrite lookup_insert_ne by congruence. by rewrite lookup_empty.
Qed.

Lemma inv_GAME : inv GAME.
Proof.
  split.
  - exists 0, 0. repeat split; reflexivity || lia.
  - intros p Hp. cbn in Hp. by apply elem_of_nil in Hp.
Qed.

Lemma apply_action_inv (G : Game) (cp : Player) (w : string)
    (rest : list string) (a : option string) :
  inv G → cp ∈ players G → inv (apply_action G cp w rest a).
Proof.
  intros [Hsc Htm] Hcp. pose proof (Htm cp Hcp) as Hteam.
  pose proof (score_non_negative G (p_team cp) Hsc) as Hnn.
  unfold apply_action.
  destruct (is_action a "correct"); [|destruct (is_action a "taboo");
    [|destruct (is_action a "pass")]]; split; try exact Htm; try exact Hsc.
  - apply scores_ok_insert; [exact Hsc | exact Hteam | lia].
  - apply scores_ok_insert; [exact Hsc | exact Hteam | lia].
Qed.

(** Every handler keeps the invariant, whatever the cookie and the form. *)
Lemma handle_inv (G : Game) (sess : Session) (r : Request) :
  inv G → inv (game_of (handle G sess r)).
Proof.
  intros HI. pose proof HI as [Hsc Htm].
  destruct r as [|n t u|tl raw sh| |a| |]; simpl.
  - exact HI.
  - unfold join. destruct (started G); [exact HI|].
    destruct (negb (nonempty (PyStr.strip (default "" n)))
              || negb (String.eqb (PyStr.lower (PyStr.strip (default "" t))) "red"
                       || String.eqb (PyStr.lower (PyStr.strip (default "" t))) "blue"))%bool
      eqn:Hbad; [exact HI|].
    apply orb_false_iff in Hbad as [_ Hteam].
    apply negb_false_iff, orb_true_iff in Hteam.
    split; [exact Hsc|].
    intros p Hp. cbn in Hp. apply elem_of_app in Hp as [Hp|Hp]; [by apply Htm|].
    apply list_elem_of_singleton in Hp. subst p. cbn.
    destruct Hteam as [H|H]; apply String.eqb_eq in H; auto.
  - unfold start_game.
    destruct (length (players G) <? 2)%nat; [exact HI|].
    destruct (negb (both_teams G)); [exact HI|].
    destruct (load_cards raw); [exact HI|].
    destruct (parse_time_limit tl); (split; [|exact Htm]);
      exists 0, 0; repeat split; reflexivity || lia.
  - unfold game. destruct (negb (started G)); [exact HI|].
    destruct (players G); [exact HI|]. destruct (deck G); [exact HI|].
    destruct (active_player G); exact HI.
  - unfold action. destruct (players G) as [|p ps] eqn:Hps; [exact HI|].
    destruct (deck G) as [|w rest]; [exact HI|].
    destruct (active_player G) as [cp|] eqn:Hact; [|exact HI].
    destruct (not_requester sess cp); [exact HI|]. cbn.
    apply apply_action_inv; [exact HI|]. by apply active_player_elem.
  - unfold next_turn. destruct (players G) eqn:Hps; [exact HI|].
    destruct (active_player G) as [cp|]; [|exact HI].
    destruct (not_requester sess cp); [exact HI|].
    rewrite <- Hps. split; [exact Hsc | exact Htm].
  - exact inv_GAME.
Qed.

Lemma reachable_inv (G : Game) : reachable G → inv G.
Proof.
  induction 1 as [|G sess r _ IH _]; [exact inv_GAME | by apply handle_inv].
Qed.

(** A run of [action] requests stays within the reachable states. *)
Lemma run_actions_reachable (G : Game) (calls : list (Session * option string)) :
  reachable G → reachable (run_actions G calls).
Proof.
  revert G. induction calls as [|[sess a] calls IH]; intros G HG; [exact HG|].
  cbn. apply IH. exact (reach_step G sess (ReqAction a) HG I).
Qed.

(** C3: in every reachable state the scoreboard holds a non-negative score
    for "red" and for "blue" and nothing else; for the clue-giver on a
    non-empty deck, "taboo" sets the team's score to [max 0 (score - 1)],
    "correct" adds one to it, and "pass" leaves the scores alone and adds
    one to the pass counter; after any further run of [action] requests the
    scores are still non-negative. *)
Theorem C3_scores_never_negative (G : Game) :
  reachable G →
  (∃ r b : Z, scores G = <["red" := r]> (<["blue" := b]> ∅) ∧ 0 ≤ r ∧ 0 ≤ b)
  ∧ (∀ t, 0 ≤ score (scores G) t)
  ∧ (∀ calls t, 0 ≤ score (scores (run_actions G calls)) t)
  ∧ (∀ sess cp w rest, is_clue_giver G sess cp → deck G = w :: rest →
       let team := p_team cp in
       let old := score (scores G) team in
       scores G !! team = Some old
       ∧ (let G' := game_of (action G sess (Some "taboo")) in
          scores G' = <[team := Z.max 0 (old - 1)]> (scores G)
          ∧ score (scores G') team = Z.max 0 (old - 1)
          ∧ passes G' = passes G)
       ∧ (let G' := game_of (action G sess (Some "correct")) in
          scores G' = <[team := old + 1]> (scores G)
          ∧ score (scores G') team = old + 1
          ∧ passes G' = passes G)
       ∧ (let G' := game_of (action G sess (Some "pass")) in
          scores G' = scores G
          ∧ passes G' = passes G + 1)).
Proof.
  intros Hreach. pose proof (reachable_inv G Hreach) as [Hsc Htm].
  split; [exact Hsc|]. split; [intros t; by apply score_non_negative|].
  split.
  { intros calls t. apply score_non_negative.
    by apply reachable_inv, run_actions_reachable. }
  intros sess cp w rest Hcg Hdeck team old.
  split.
  { destruct Hcg as [Hact _]. apply active_player_elem, Htm in Hact.
    destruct Hsc as (r & b & Hs & _). subst old team. unfold score.
    rewrite Hs. destruct Hact as [-> | ->].
    - by rewrite lookup_insert_eq.
    - rewrite lookup_insert_ne by discriminate. by rewrite lookup_insert_eq. }
  rewrite !(action_clue_giver G sess cp w rest _ Hcg Hdeck). cbn.
  subst team old.
  assert (∀ v, score (<[p_team cp := v]> (scores G)) (p_team cp) = v) as Hread.
  { intros v. unfold score. by rewrite lookup_insert_eq. }
  rewrite !Hread. repeat split.
Qed.

(** Ann and Bob join, the round is started, and Ann is the clue-giver. *)
Lemma C3_scores_never_negative_witness :
  reachable Sample.played
  ∧ (∀ t, 0 ≤ score (scores Sample.played) t)
  ∧ scores (game_of (action Sample.played (Sample.cookie Sample.ann) (Some "taboo")))
    = <["red" := Z.max 0 (score (scores Sample.played) "red" - 1)]>
        (scores Sample.played)
  ∧ scores (game_of (action Sample.played (Sample.cookie Sample.ann) (Some "correct")))
    = <["red" := score (scores Sample.played) "red" + 1]> (scores Sample.played).
Proof.
  assert (reachable Sample.played) as Hreach.
  { unfold Sample.played. repeat apply reach_step; try exact I.
    - exact reach_init.
    - intros l. reflexivity. }
  destruct (C3_scores_never_negative Sample.played Hreach) as (_ & Hnn & _ & Hact).
  assert (is_clue_giver Sample.played (Sample.cookie Sample.ann) Sample.ann) as Hcg
    by (split; reflexivity).
  destruct (Hact (Sample.cookie Sample.ann) Sample.ann "apple" ["river"] Hcg eq_refl)
    as (_ & (Ht & _) & (Hc & _) & _).
  split; [exact Hreach|]. split; [exact Hnn|]. split; [exact Ht | exact Hc].
Defined.

(** The penalty floor at work: with zero points a "taboo" leaves zero. *)
Example taboo_at_zero :
  score (scores (game_of (action Sample.played (Sample.cookie Sample.ann)
                            (Some "taboo")))) "red" = 0.
Proof. reflexivity. Qed.

(** ** Starting a round *)

(** A round is in progress with a point on the board, in a state reached
    by joins, a start and three requests of Ann; a caller posts [/start]
    with a valid time limit.  The request is accepted, and deck, scores,
    pass counter and turn index of the running round are replaced. *)
Lemma C5_counterexample :
  let out := start_game Sample.last_card (Sample.cookie Sample.ann) (Some "60")
               Sample.catalog (fun l => l) in
  reachable Sample.last_card
  ∧ started Sample.last_card = true
  ∧ response out = Redirect ep_game
  ∧ deck (game_of out) ≠ deck Sample.last_card
  ∧ scores (game_of out) ≠ scores Sample.last_card
  ∧ passes (game_of out) ≠ passes Sample.last_card
  ∧ turn_index (game_of out) ≠ turn_index Sample.last_card.
Proof.
  cbv zeta. split; [exact sample_last_card_reachable|].
  split; [reflexivity|]. split; [reflexivity|].
  split; [intros H; vm_compute in H; discriminate H|].
  split; [|split; intros H; vm_compute in H; discriminate H].
  intros Heq.
  assert (scores (game_of (start_game Sample.last_card (Sample.cookie Sample.ann)
                             (Some "60") Sample.catalog (fun l => l))) !! "red"
          = scores Sample.last_card !! "red") as Hred by (by rewrite Heq).
  vm_compute in Hred. discriminate.
Qed.

(** C5, amended: [start_game] does not look at [started].  It is rejected
    with "not enough players" exactly when the roster has fewer than two
    players, with "teams unbalanced" exactly when it has two or more but
    not both teams, with "empty catalog" exactly when those two tests pass
    and no valid card is loaded; a rejection leaves [GAME] as it is.  When
    none applies and the time limit is absent or an integer, a new round is
    set up, whether or not one was in progress. *)
Theorem C5_start_game_rejections (G : Game) (sess : Session)
    (tl : option string) (raw : list RawEntry) (sh : list string → list string) :
  let out := start_game G sess tl raw sh in
  (start_error out = Some NotEnoughPlayers ↔ (length (players G) < 2)%nat)
  ∧ (start_error out = Some TeamsUnbalanced ↔
     (2 ≤ length (players G))%nat ∧ both_teams G = false)
  ∧ (start_error out = Some EmptyCatalog ↔
     (2 ≤ length (players G))%nat ∧ both_teams G = true ∧ load_cards raw = [])
  ∧ (start_error out ≠ None → game_of out = G)
  ∧ (start_error out = None → ∀ t, parse_time_limit tl = Some t →
       response out = Redirect ep_game
       ∧ game_of out =
         {| players := players G; deck := sh (word <$> load_cards raw);
            cards := load_cards raw; scores := zero_scores; passes := 0;
            turn_index := 0; time_limit := t; started := true |}).
Proof.
  cbv zeta. unfold start_game.
  destruct (length (players G) <? 2)%nat eqn:Hlen.
  { apply Nat.ltb_lt in Hlen. cbn.
    split; [split; [intros _; exact Hlen | reflexivity]|].
    split; [split; [discriminate | intros [? _]; lia]|].
    split; [split; [discriminate | intros [? _]; lia]|].
    split; [reflexivity | discriminate]. }
  apply Nat.ltb_ge in Hlen.
  destruct (both_teams G) eqn:Hbt; cbn.
  2:{ split; [split; [discriminate | lia]|].
      split; [split; [intros _; by split | reflexivity]|].
      split; [split; [discriminate | intros (_ & ? & _); discriminate]|].
      split; [reflexivity | discriminate]. }
  destruct (load_cards raw) as [|c cs] eqn:Hcs.
  { cbn.
    split; [split; [discriminate | lia]|].
    split; [split; [discriminate | intros [_ ?]; discriminate]|].
    split; [split; [intros _; by repeat split | reflexivity]|].
    split; [reflexivity | discriminate]. }
  destruct (parse_time_limit tl) as [t|]; cbn.
  - split; [split; [discriminate | lia]|].
    split; [split; [discriminate | intros [_ ?]; discriminate]|].
    split; [split; [discriminate | intros (_ & _ & ?); discriminate]|].
    split; [congruence|].
    intros _ t' [= <-]. split; reflexivity.
  - split; [split; [discriminate | lia]|].
    split; [split; [discriminate | intros [_ ?]; discriminate]|].
    split; [split; [discriminate | intros (_ & _ & ?); discriminate]|].
    split; [congruence | discriminate].
Qed.

(** The three rejections on concrete rosters, and a restart of a running
    round. *)
Lemma C5_start_game_rejections_witness :
  start_error (start_game GAME (mkSession None None) (Some "60") Sample.catalog
                 (fun l => l)) = Some NotEnoughPlayers
  ∧ game_of (start_game GAME (mkSession None None) (Some "60") Sample.catalog
               (fun l => l)) = GAME
  ∧ response (start_game Sample.last_card (Sample.cookie Sample.ann) (Some "60")
                Sample.catalog (fun l => l)) = Redirect ep_game.
Proof.
  destruct (C5_start_game_rejections GAME (mkSession None None) (Some "60")
              Sample.catalog (fun l => l)) as (Hne & _ & _ & Hkeep & _).
  destruct (C5_start_game_rejections Sample.last_card (Sample.cookie Sample.ann)
              (Some "60") Sample.catalog (fun l => l)) as (_ & _ & _ & _ & Hgo).
  split; [apply Hne; cbn; lia|].
  split; [apply Hkeep; discriminate|].
  apply (Hgo eq_refl 60 eq_refl).
Defined.

Example start_game_teams_unbalanced :
  let G := {| players := [Sample.ann; Sample.cat]; deck := []; cards := [];
              scores := zero_scores; passes := 0; turn_index := 0;
              time_limit := 60; started := false |} in
  start_error (start_game G (Sample.cookie Sample.ann) None Sample.catalog
                 (fun l => l)) = Some TeamsUnbalanced.
Proof. reflexivity. Qed.

Example start_game_empty_catalog :
  let G := {| players := [Sample.ann; Sample.bob]; deck := []; cards := [];
              scores := zero_scores; passes := 0; turn_index := 0;
              time_limit := 60; started := false |} in
  start_error (start_game G (Sample.cookie Sample.ann) None
                 [mkRaw "" ["x"]; mkRaw "cloud" [" "]] (fun l => l))
  = Some EmptyCatalog.
Proof. reflexivity. Qed.

(** ** A time limit that is not an integer *)

(** When the three tests of [start_game] pass and the [time_limit] field
    does not parse, the handler raises after it has already replaced deck,
    cards, scores, pass counter and turn index; [time_limit] and [started]
    keep their old values and no message is left in the cookie. *)
Lemma start_game_bad_time_limit (G : Game) (sess : Session) (s : string)
    (raw : list RawEntry) (sh : list string → list string) :
  (2 ≤ length (players G))%nat → both_teams G = true → load_cards raw ≠ [] →
  PyStr.int s = None →
  start_game G sess (Some s) raw sh =
  mkOutcome
    {| players := players G; deck := sh (word <$> load_cards raw);
       cards := load_cards raw; scores := zero_scores; passes := 0;
       turn_index := 0; time_limit := time_limit G; started := started G |}
    sess (Raised "ValueError").
Proof.
  intros Hlen Hbt Hcs Hint. unfold start_game.
  apply Nat.ltb_ge in Hlen. rewrite Hlen, Hbt. cbn.
  destruct (load_cards raw); [congruence|]. cbn. by rewrite Hint.
Qed.

(** With the card file read as a list of entries, the only handler that
    raises is [start_game], and only in that way. *)
Lemma handle_raises (G : Game) (sess : Session) (r : Request) (e : string) :
  response (handle G sess r) = Raised e →
  ∃ s raw sh, r = ReqStart (Some s) raw sh ∧ PyStr.int s = None
              ∧ e = "ValueError".
Proof.
  destruct r as [|n t u|tl raw sh| |a| |]; cbn.
  - discriminate.
  - unfold join. destruct (started G); [discriminate|].
    destruct (_ || _)%bool; discriminate.
  - unfold start_game. destruct (_ <? _)%nat; [discriminate|].
    destruct (negb _); [discriminate|].
    destruct (load_cards raw); [discriminate|].
    destruct tl as [s|]; cbn; [|discriminate].
    destruct (PyStr.int s) eqn:Hint; [discriminate|].
    intros [= <-]. by exists s, raw, sh.
  - unfold game. destruct (negb _); [discriminate|].
    destruct (players G) eqn:Hps; [discriminate|].
    destruct (deck G); [discriminate|].
    destruct (active_player_nonempty G) as [cp ->]; [congruence|]. discriminate.
  - unfold action. destruct (players G) eqn:Hps; [discriminate|].
    destruct (deck G); [discriminate|].
    destruct (active_player_nonempty G) as [cp ->]; [congruence|].
    destruct (not_requester sess cp); [discriminate|]. cbn.
    destruct (deck _); discriminate.
  - unfold next_turn. destruct (players G) eqn:Hps; [discriminate|].
    destruct (active_player_nonempty G) as [cp ->]; [congruence|].
    destruct (not_requester sess cp); discriminate.
  - discriminate.
Qed.

(** The tests that send a caller back leave [GAME] alone: [join] during a
    round or with a bad name or team, and every redirect of [action],
    [next_turn] and [game] that precedes the requester test. *)
Lemma join_rejected_keeps_game (G : Game) (sess : Session)
    (n t : option string) (u : string) :
  players (game_of (join G sess n t u)) = players G →
  game_of (join G sess n t u) = G.
Proof.
  unfold join. destruct (started G); [reflexivity|].
  destruct (_ || _)%bool; [reflexivity|]. cbn.
  intros Happ. apply (f_equal length) in Happ.
  rewrite length_app in Happ. cbn in Happ. lia.
Qed.

Lemma game_keeps_game (G : Game) (sess : Session) :
  game_of (game G sess) = G ∧ session_of (game G sess) = sess.
Proof.
  unfold game. destruct (negb _); [done|].
  destruct (players G); [done|]. destruct (deck G); [done|].
  destruct (active_player G); done.
Qed.

(** C6: posting [/start] with a time limit that is not an integer, while a
    round is in progress (in a state reached by joins, a start and three
    requests of Ann), ends in [ValueError] with the deck, the scores, the
    pass counter and the turn index of the round already replaced. *)
Theorem C6_bad_time_limit_partial_mutation :
  let G := Sample.last_card in
  let out := start_game G (Sample.cookie Sample.ann) (Some "sixty")
               Sample.catalog (fun l => l) in
  reachable G
  ∧ response out = Raised "ValueError"
  ∧ deck G = ["apple"] ∧ deck (game_of out) = ["apple"; "river"]
  ∧ score (scores G) "red" = 1 ∧ score (scores (game_of out)) "red" = 0
  ∧ passes G = 1 ∧ passes (game_of out) = 0
  ∧ turn_index G = 1 ∧ turn_index (game_of out) = 0
  ∧ time_limit (game_of out) = time_limit G
  ∧ started (game_of out) = started G
  ∧ game_of out ≠ G.
Proof.
  cbv zeta. split; [exact sample_last_card_reachable|].
  repeat split.
  intros H. apply (f_equal deck) in H. vm_compute in H. discriminate H.
Qed.

(** C8: posting [/start] with an empty [time_limit] field on a roster that
    can start ends in [ValueError]; the caller gets no redirect and no
    message in the cookie. *)
Theorem C8_bad_time_limit_raises :
  let G := game_of (join (game_of (join GAME (mkSession None None)
                                     (Some "Ann") (Some "red") "a1"))
                      (mkSession None None) (Some "Bob") (Some "blue") "b1") in
  let out := start_game G (Sample.cookie Sample.bob) (Some "")
               Sample.catalog (fun l => l) in
  PyStr.int "" = None
  ∧ response out = Raised "ValueError"
  ∧ error (session_of out) = None
  ∧ (∀ e, response out ≠ Redirect e)
  ∧ started (game_of out) = false
  ∧ deck (game_of out) = ["apple"; "river"].
Proof.
  cbv zeta. repeat split. intros e. discriminate.
Qed.

(** * Further properties of the handlers *)

(** ** Stripping *)

Lemma lstrip_head (s : string) (c : ascii) (r : string) :
  PyStr.lstrip s = String c r → PyStr.isspace c = false.
Proof.
  induction s as [|a s IH]; cbn; [discriminate|].
  destruct (PyStr.isspace a) eqn:Ha; [exact IH|].
  intros [= <- <-]. exact Ha.
Qed.

Lemma lstrip_fixed (s : string) :
  (∀ c r, s = String c r → PyStr.isspace c = false) → PyStr.lstrip s = s.
Proof.
  destruct s as [|a s]; [reflexivity|]. intros H. cbn.
  by rewrite (H a s eq_refl).
Qed.

Lemma rstrip_idempotent (s : string) :
  PyStr.rstrip (PyStr.rstrip s) = PyStr.rstrip s.
Proof.
  induction s as [|a s IH]; [reflexivity|]. cbn.
  destruct (PyStr.rstrip s) as [|b r] eqn:Hr.
  - destruct (PyStr.isspace a) eqn:Ha; [reflexivity|]. cbn. by rewrite Ha.
  - change (PyStr.rstrip (String a (String b r))) with
      (match PyStr.rstrip (String b r) with
       | EmptyString =>
           if PyStr.isspace a then EmptyString else String a EmptyString
       | r' => String a r'
       end).
    by rewrite IH.
Qed.

Lemma rstrip_head (s : string) (c : ascii) (r : string) :
  PyStr.isspace c = false →
  ∃ r', PyStr.rstrip (String c r) = String c r'.
Proof.
  intros Hc. cbn. destruct (PyStr.rstrip r); [rewrite Hc|]; eauto.
Qed.

(** [strip] leaves nothing to strip: its result is a fixed point of
    [lstrip], of [rstrip] and of [strip] itself, and it does not begin with
    a blank. *)
Lemma strip_idempotent (s : string) :
  PyStr.lstrip (PyStr.strip s) = PyStr.strip s
  ∧ PyStr.rstrip (PyStr.strip s) = PyStr.strip s
  ∧ PyStr.strip (PyStr.strip s) = PyStr.strip s
  ∧ (∀ c r, PyStr.strip s = String c r → PyStr.isspace c = false).
Proof.
  assert (∀ c r, PyStr.strip s = String c r → PyStr.isspace c = false) as Hhead.
  { unfold PyStr.strip. intros c r.
    destruct (PyStr.lstrip s) as [|a l] eqn:Hl; [discriminate|].
    pose proof (lstrip_head _ _ _ Hl) as Ha.
    destruct (rstrip_head l a l Ha) as [r' ->]. by intros [= <- _]. }
  assert (PyStr.lstrip (PyStr.strip s) = PyStr.strip s) as Hl
    by (by apply lstrip_fixed).
  assert (PyStr.rstrip (PyStr.strip s) = PyStr.strip s) as Hr
    by apply rstrip_idempotent.
  assert (PyStr.strip (PyStr.strip s) = PyStr.strip s) as Hs.
  { unfold PyStr.strip at 1. by rewrite Hl, Hr. }
  repeat split; assumption.
Qed.

(** ** The card file *)

Lemma filter_nonempty_elem (l : list string) (t : string) :
  t ∈ List.filter nonempty l → t ∈ l ∧ t ≠ "".
Proof.
  rewrite !list_elem_of_In, filter_In. intros [Hin Hne].
  split; [exact Hin|]. intros ->. discriminate.
Qed.

Lemma load_entry_valid (e : RawEntry) (c : Card) :
  load_entry e = Some c →
  valid_card c ∧ word c = PyStr.strip (raw_word e).
Proof.
  unfold load_entry.
  destruct (List.filter nonempty (PyStr.strip <$> raw_taboo e)) as [|t ts] eqn:Hf;
    [discriminate|].
  destruct (nonempty (PyStr.strip (raw_word e))) eqn:Hw; [|discriminate].
  intros [= <-]. split; [|reflexivity].
  split; [|split; [|split]]; cbn.
  - intros H. rewrite H in Hw. discriminate.
  - apply strip_idempotent.
  - discriminate.
  - intros x Hx. rewrite <- Hf in Hx.
    apply filter_nonempty_elem in Hx as [Hin Hne]. split; [exact Hne|].
    apply list_elem_of_fmap in Hin as (y & -> & _). apply strip_idempotent.
Qed.

(** X2: every card [load_cards] returns is valid (stripped non-empty word,
    at least one taboo word, all of them stripped and non-empty) and comes
    from an entry of the file with that word; no more cards are returned
    than the file has entries. *)
Theorem load_cards_valid (raw : list RawEntry) :
  (∀ c, c ∈ load_cards raw →
        valid_card c ∧ ∃ e, e ∈ raw ∧ word c = PyStr.strip (raw_word e))
  ∧ (length (load_cards raw) ≤ length raw)%nat.
Proof.
  split.
  - intros c Hc. unfold load_cards in Hc.
    apply list_elem_of_omap in Hc as (e & He & Hload).
    apply load_entry_valid in Hload as [Hv Hw]. eauto.
  - unfold load_cards. induction raw as [|e raw IH]; cbn; [lia|].
    destruct (load_entry e); cbn; lia.
Qed.

(** An entry with a non-blank word and a non-blank taboo word is kept. *)
Lemma load_entry_keeps (e : RawEntry) (t : string) :
  PyStr.strip (raw_word e) ≠ "" → t ∈ raw_taboo e → PyStr.strip t ≠ "" →
  ∃ c, load_entry e = Some c.
Proof.
  intros Hw Ht Hts. unfold load_entry.
  assert (PyStr.strip t ∈ List.filter nonempty (PyStr.strip <$> raw_taboo e)) as Hin.
  { rewrite list_elem_of_In, filter_In, <- list_elem_of_In. split.
    - apply list_elem_of_fmap. eauto.
    - destruct (PyStr.strip t); [congruence | reflexivity]. }
  destruct (List.filter nonempty (PyStr.strip <$> raw_taboo e)) as [|x xs].
  - by apply elem_of_nil in Hin.
  - destruct (PyStr.strip (raw_word e)); [congruence|]. cbn. eauto.
Qed.

(** X3: an entry of the card file becomes a card exactly when its word is
    not blank and at least one of its taboo words is not blank. *)
Theorem load_entry_kept_iff (e : RawEntry) :
  is_Some (load_entry e) ↔
  PyStr.strip (raw_word e) ≠ ""
  ∧ ∃ t, t ∈ raw_taboo e ∧ PyStr.strip t ≠ "".
Proof.
  split.
  - intros [c Hc]. unfold load_entry in Hc.
    destruct (List.filter nonempty (PyStr.strip <$> raw_taboo e)) as [|x xs] eqn:Hf;
      [discriminate|].
    destruct (nonempty (PyStr.strip (raw_word e))) eqn:Hw; [|discriminate].
    split; [intros H; rewrite H in Hw; discriminate|].
    assert (x ∈ List.filter nonempty (PyStr.strip <$> raw_taboo e)) as Hx
      by (rewrite Hf; apply list_elem_of_here).
    apply filter_nonempty_elem in Hx as [Hin Hne].
    apply list_elem_of_fmap in Hin as (t & -> & Ht). eauto.
  - intros (Hw & t & Ht & Hts).
    destruct (load_entry_keeps e t Hw Ht Hts) as [c Hc]. eauto.
Qed.

(** ** Resolving the cookie *)

Lemma find_none_iff {A} (f : A → bool) (l : list A) :
  List.find f l = None ↔ ∀ x, x ∈ l → f x = false.
Proof.
  split.
  - intros H x Hx. apply list_elem_of_In in Hx. by apply (find_none f l H).
  - induction l as [|a l IH]; [reflexivity|]. intros H. cbn.
    rewrite (H a) by apply list_elem_of_here.
    apply IH. intros x Hx. apply H. by apply list_elem_of_further.
Qed.

(** X4: [get_current_user] gives no user exactly when the cookie has no
    [player_id], an empty one, or one that no player of the roster carries;
    a user it gives is on the roster and carries the cookie's id. *)
Theorem get_current_user_none_iff (G : Game) (sess : Session) :
  (get_current_user G sess = None ↔
   player_id sess = None ∨ player_id sess = Some ""
   ∨ ∃ pid, player_id sess = Some pid ∧ ∀ p, p ∈ players G → p_id p ≠ pid)
  ∧ (∀ u, get_current_user G sess = Some u →
          u ∈ players G ∧ player_id sess = Some (p_id u) ∧ p_id u ≠ "").
Proof.
  split.
  - unfold get_current_user. destruct (player_id sess) as [pid|]; [|by intuition].
    destruct pid as [|a pid']; cbn [nonempty]; [by intuition|].
    rewrite find_none_iff. split.
    + intros H. right. right. eexists. split; [reflexivity|].
      intros p Hp. apply String.eqb_neq. by apply H.
    + intros [H | [H | (pid & [= <-] & H)]]; try discriminate.
      intros p Hp. apply String.eqb_neq. by apply H.
  - intros u Hu. destruct (get_current_user_spec G sess u Hu) as [Hid Hin].
    repeat split; try assumption.
    unfold get_current_user in Hu. rewrite Hid in Hu.
    intros Hemp. rewrite Hemp in Hu. discriminate.
Qed.

(** ** Joining *)

(** X5: in a session with no round started, a [join] with a non-blank name
    and a team that reads "red" or "blue" once stripped and lower-cased
    appends the player at the end of the roster, binds the cookie to the new
    id and touches nothing else; if the id is non-empty and new to the
    roster, the cookie then resolves to the new player. *)
Theorem join_registers_player (G : Game) (sess : Session)
    (n t : option string) (u : string) :
  started G = false →
  PyStr.strip (default "" n) ≠ "" →
  PyStr.lower (PyStr.strip (default "" t)) = "red"
  ∨ PyStr.lower (PyStr.strip (default "" t)) = "blue" →
  let out := join G sess n t u in
  let p := {| p_id := u; p_name := PyStr.strip (default "" n);
              p_team := PyStr.lower (PyStr.strip (default "" t)) |} in
  players (game_of out) = (players G ++ [p])%list
  ∧ deck (game_of out) = deck G ∧ cards (game_of out) = cards G
  ∧ scores (game_of out) = scores G ∧ passes (game_of out) = passes G
  ∧ turn_index (game_of out) = turn_index G
  ∧ time_limit (game_of out) = time_limit G
  ∧ started (game_of out) = false
  ∧ session_of out = {| player_id := Some u; error := error sess |}
  ∧ response out = Redirect ep_index
  ∧ (u ≠ "" → (∀ q, q ∈ players G → p_id q ≠ u) →
     get_current_user (game_of out) (session_of out) = Some p).
Proof.
  intros Hst Hname Hteam. cbv zeta. unfold join. rewrite Hst.
  assert (nonempty (PyStr.strip (default "" n)) = true) as Hn.
  { destruct (PyStr.strip (default "" n)); [congruence | reflexivity]. }
  assert ((String.eqb (PyStr.lower (PyStr.strip (default "" t))) "red"
           || String.eqb (PyStr.lower (PyStr.strip (default "" t))) "blue")%bool
          = true) as Ht.
  { apply orb_true_iff. destruct Hteam as [H|H]; [left|right]; by apply String.eqb_eq. }
  rewrite Hn, Ht. cbn. repeat split; try assumption.
  intros Hu Hfresh. unfold get_current_user. cbn.
  assert (nonempty u = true) as -> by (destruct u; [congruence | reflexivity]).
  induction (players G) as [|q ps IH]; cbn.
  - by rewrite String.eqb_refl.
  - assert (String.eqb (p_id q) u = false) as ->.
    { apply String.eqb_neq, Hfresh, list_elem_of_here. }
    apply IH. intros q' Hq'. apply Hfresh. by apply list_elem_of_further.
Qed.

Lemma join_registers_player_witness :
  players (game_of (join GAME (mkSession None None) (Some " Ann ") (Some "RED ") "a1"))
  = [mkPlayer "a1" "Ann" "red"]
  ∧ get_current_user
      (game_of (join GAME (mkSession None None) (Some " Ann ") (Some "RED ") "a1"))
      (session_of (join GAME (mkSession None None) (Some " Ann ") (Some "RED ") "a1"))
    = Some (mkPlayer "a1" "Ann" "red").
Proof.
  assert (PyStr.strip (default "" (Some " Ann ")) ≠ "") as Hn by discriminate.
  assert (PyStr.lower (PyStr.strip (default "" (Some "RED "))) = "red"
          ∨ PyStr.lower (PyStr.strip (default "" (Some "RED "))) = "blue") as Ht
    by (left; reflexivity).
  destruct (join_registers_player GAME (mkSession None None) (Some " Ann ")
              (Some "RED ") "a1" eq_refl Hn Ht)
    as (Hp & _ & _ & _ & _ & _ & _ & _ & _ & _ & Hcu).
  split; [exact Hp|]. apply Hcu; [discriminate|].
  intros q Hq. cbn in Hq. by apply elem_of_nil in Hq.
Defined.

(** X6: [join] leaves [GAME] as it is exactly when a round is started, the
    name is blank, or the team is neither "red" nor "blue"; the caller then
    keeps the [player_id] of the cookie and finds a message in it. *)
Theorem join_rejected_iff (G : Game) (sess : Session)
    (n t : option string) (u : string) :
  let out := join G sess n t u in
  let team := PyStr.lower (PyStr.strip (default "" t)) in
  (game_of out = G ↔
   started G = true ∨ PyStr.strip (default "" n) = ""
   ∨ (team ≠ "red" ∧ team ≠ "blue"))
  ∧ (game_of out = G →
     player_id (session_of out) = player_id sess
     ∧ is_Some (error (session_of out))
     ∧ response out = Redirect ep_index).
Proof.
  cbv zeta. unfold join.
  destruct (started G) eqn:Hst.
  { cbn. split; [split; auto|]. intros _. repeat split. eauto. }
  destruct (PyStr.strip (default "" n)) as [|a name] eqn:Hn; cbn [nonempty negb orb].
  { cbn. split; [split; auto|]. intros _. repeat split. eauto. }
  destruct (String.eqb (PyStr.lower (PyStr.strip (default "" t))) "red") eqn:Hr;
    cbn [negb orb].
  - apply String.eqb_eq in Hr. cbn. split.
    + split.
      * intros H. apply (f_equal (λ g, length (players g))) in H. cbn in H.
        rewrite length_app in H. cbn in H. lia.
      * intros [H | [H | [H _]]]; congruence.
    + intros H. apply (f_equal (λ g, length (players g))) in H. cbn in H.
      rewrite length_app in H. cbn in H. lia.
  - destruct (String.eqb (PyStr.lower (PyStr.strip (default "" t))) "blue") eqn:Hb.
    + apply String.eqb_eq in Hb. cbn. split.
      * split.
        -- intros H. apply (f_equal (λ g, length (players g))) in H. cbn in H.
           rewrite length_app in H. cbn in H. lia.
        -- intros [H | [H | [_ H]]]; congruence.
      * intros H. apply (f_equal (λ g, length (players g))) in H. cbn in H.
        rewrite length_app in H. cbn in H. lia.
    + apply String.eqb_neq in Hr, Hb. cbn. split.
      * split; [|reflexivity]. intros _. right. right. by split.
      * intros _. repeat split. eauto.
Qed.

(** ** What each handler can do to [GAME] *)

Lemma join_cases (G : Game) (sess : Session) (n t : option string) (u : string) :
  game_of (join G sess n t u) = G
  ∨ (started G = false
     ∧ ∃ p, p_name p ≠ "" ∧ PyStr.strip (p_name p) = p_name p
            ∧ (p_team p = "red" ∨ p_team p = "blue")
            ∧ game_of (join G sess n t u) =
              {| players := players G ++ [p]; deck := deck G; cards := cards G;
                 scores := scores G; passes := passes G;
                 turn_index := turn_index G; time_limit := time_limit G;
                 started := started G |}).
Proof.
  unfold join. destruct (started G) eqn:Hst; [by left|].
  destruct (negb (nonempty (PyStr.strip (default "" n)))
            || negb (String.eqb (PyStr.lower (PyStr.strip (default "" t))) "red"
                     || String.eqb (PyStr.lower (PyStr.strip (default "" t))) "blue"))%bool
    eqn:Hbad; [by left|].
  right. split; [reflexivity|].
  apply orb_false_iff in Hbad as [Hn Ht].
  apply negb_false_iff in Hn. apply negb_false_iff, orb_true_iff in Ht.
  eexists. split; [|split; [|split; [|reflexivity]]]; cbn.
  - intros H. rewrite H in Hn. discriminate.
  - apply strip_idempotent.
  - destruct Ht as [H|H]; apply String.eqb_eq in H; auto.
Qed.

Lemma start_game_cases (G : Game) (sess : Session) (tl : option string)
    (raw : list RawEntry) (sh : list string → list string) :
  game_of (start_game G sess tl raw sh) = G
  ∨ ((2 ≤ length (players G))%nat ∧ both_teams G = true ∧ load_cards raw ≠ []
     ∧ ∃ t st, (st = true ∨ (st = started G ∧ parse_time_limit tl = None))
               ∧ game_of (start_game G sess tl raw sh) =
                 {| players := players G; deck := sh (word <$> load_cards raw);
                    cards := load_cards raw; scores := zero_scores;
                    passes := 0; turn_index := 0; time_limit := t;
                    started := st |}).
Proof.
  unfold start_game.
  destruct (length (players G) <? 2)%nat eqn:Hlen; [by left|].
  apply Nat.ltb_ge in Hlen.
  destruct (both_teams G) eqn:Hbt; [|by left]. cbn.
  destruct (load_cards raw) as [|c cs] eqn:Hcs; [by left|].
  right. split; [exact Hlen|]. split; [reflexivity|]. split; [discriminate|].
  destruct (parse_time_limit tl) as [t|]; cbn.
  - exists t, true. split; [by left | reflexivity].
  - exists (time_limit G), (started G). split; [by right | reflexivity].
Qed.

Lemma action_cases (G : Game) (sess : Session) (a : option string) :
  game_of (action G sess a) = G
  ∨ ∃ cp w rest, is_clue_giver G sess cp ∧ deck G = w :: rest
                 ∧ game_of (action G sess a) = apply_action G cp w rest a.
Proof.
  unfold action. destruct (players G) as [|p ps]; [by left|].
  destruct (deck G) as [|w rest] eqn:Hd; [by left|].
  destruct (active_player G) as [cp|] eqn:Hact; [|by left].
  destruct (not_requester sess cp) eqn:Hreq; [by left|].
  right. exists cp, w, rest. apply not_requester_false in Hreq.
  repeat split; assumption.
Qed.

Lemma next_turn_cases (G : Game) (sess : Session) :
  game_of (next_turn G sess) = G
  ∨ (players G ≠ []
     ∧ (∃ cp, is_clue_giver G sess cp)
     ∧ game_of (next_turn G sess) =
       {| players := players G; deck := deck G; cards := cards G;
          scores := scores G; passes := passes G;
          turn_index := (turn_index G + 1) `mod` Z.of_nat (length (players G));
          time_limit := time_limit G; started := started G |}).
Proof.
  unfold next_turn. destruct (players G) as [|p ps] eqn:Hps; [by left|].
  destruct (active_player G) as [cp|] eqn:Hact; [|by left].
  destruct (not_requester sess cp) eqn:Hreq; [by left|].
  right. split; [discriminate|]. apply not_requester_false in Hreq.
  split; [by exists cp | reflexivity].
Qed.

(** [apply_action] touches the deck, the scores and the pass counter only;
    the deck loses its front word or has it moved to the back. *)
Lemma apply_action_frame (G : Game) (cp : Player) (w : string)
    (rest : list string) (a : option string) :
  let G' := apply_action G cp w rest a in
  players G' = players G ∧ cards G' = cards G
  ∧ turn_index G' = turn_index G ∧ time_limit G' = time_limit G
  ∧ started G' = started G
  ∧ (deck G' = rest ∨ deck G' = (rest ++ [w])%list)
  ∧ (passes G' = passes G ∨ passes G' = passes G + 1).
Proof.
  cbv zeta. unfold apply_action.
  destruct (is_action a "correct"); [|destruct (is_action a "taboo");
    [|destruct (is_action a "pass")]]; cbn; repeat split; auto.
Qed.

(** ** The session invariant *)

Lemma session_inv_GAME : session_inv GAME.
Proof.
  assert (∀ A (x : A), x ∈ @nil A → False) as Hnil
    by (intros A x Hx; by apply elem_of_nil in Hx).
  split; [|split; [|split; [|split]]].
  - intros p Hp. destruct (Hnil _ _ Hp).
  - split; cbn; [lia | by left].
  - split; [|split]; cbn.
    + intros w Hw. destruct (Hnil _ _ Hw).
    + intros c Hc. destruct (Hnil _ _ Hc).
    + lia.
  - intros H. discriminate.
  - cbn. lia.
Qed.

Lemma handle_session_inv (G : Game) (sess : Session) (r : Request) :
  wf_request r → session_inv G → session_inv (game_of (handle G sess r)).
Proof.
  intros Hwf HI. pose proof HI as (Hnm & [Ht0 Ht1] & (Hd1 & Hd2 & Hd3) & Hst & Hp).
  destruct r as [|n t u|tl raw sh| |a| |]; cbn [handle].
  - exact HI.
  - destruct (join_cases G sess n t u) as [-> | (Hns & p & Hp1 & Hp2 & _ & ->)];
      [exact HI|].
    split; [|split; [|split; [|split]]]; cbn.
    + intros q Hq. cbn in Hq. apply elem_of_app in Hq as [Hq|Hq]; [by apply Hnm|].
      apply list_elem_of_singleton in Hq. by subst q.
    + split; [exact Ht0|]. cbn. rewrite length_app. cbn. lia.
    + exact (conj Hd1 (conj Hd2 Hd3)).
    + intros H. cbn in H. congruence.
    + exact Hp.
  - destruct (start_game_cases G sess tl raw sh)
      as [-> | (Hlen & Hbt & Hcs & t & st & Hstv & ->)]; [exact HI|].
    cbn in Hwf.
    split; [|split; [|split; [|split]]]; cbn.
    + exact Hnm.
    + split; cbn; [lia | by left].
    + split; [|split]; cbn.
      * intros w Hw. rewrite (Hwf _) in Hw.
        apply list_elem_of_fmap in Hw as (c & -> & Hc). eauto.
      * intros c Hc. by apply load_cards_valid in Hc as [Hv _].
      * rewrite (Permutation_length (Hwf _)), length_fmap. lia.
    + intros _. cbn. by split.
    + lia.
  - by rewrite (proj1 (game_keeps_game G sess)).
  - destruct (action_cases G sess a) as [-> | (cp & w & rest & _ & Hdeck & ->)];
      [exact HI|].
    pose proof (apply_action_frame G cp w rest a) as (Hf1 & Hf2 & Hf3 & _ & Hf5 & Hf6 & Hf7).
    cbv zeta in *.
    split; [|split; [|split; [|split]]].
    + unfold names_ok. by rewrite Hf1.
    + unfold turn_ok. rewrite Hf1, Hf3. by split.
    + unfold deck_ok. rewrite Hf2. split; [|split; [exact Hd2|]].
      * intros x Hx. apply Hd1. rewrite Hdeck.
        destruct Hf6 as [Hf6|Hf6]; rewrite Hf6 in Hx.
        -- by apply list_elem_of_further.
        -- apply elem_of_app in Hx as [Hx|Hx]; [by apply list_elem_of_further|].
           apply list_elem_of_singleton in Hx. subst x. apply list_elem_of_here.
      * rewrite Hdeck in Hd3. cbn in Hd3.
        destruct Hf6 as [Hf6|Hf6]; rewrite Hf6; [lia|].
        rewrite length_app. cbn. lia.
    + unfold started_ok, both_teams, teams. rewrite Hf1, Hf5. exact Hst.
    + destruct Hf7 as [-> | ->]; lia.
  - destruct (next_turn_cases G sess) as [-> | (Hne & _ & ->)]; [exact HI|].
    split; [|split; [|split; [|split]]]; try assumption.
    + assert (0 < Z.of_nat (length (players G))) as Hlen.
      { destruct (players G); [congruence | cbn; lia]. }
      pose proof (Z.mod_pos_bound (turn_index G + 1) _ Hlen).
      split; cbn; [lia | right; lia].
    + exact (conj Hd1 (conj Hd2 Hd3)).
  - exact session_inv_GAME.
Qed.

Lemma reachable_session_inv (G : Game) : reachable G → session_inv G.
Proof.
  induction 1 as [|G sess r _ IH Hwf];
    [exact session_inv_GAME | by apply handle_session_inv].
Qed.

(** ** Invariants of the reachable states *)

(** X7: in every reachable state each registered player is on team "red"
    or "blue" and has a non-empty name without surrounding blanks. *)
Theorem reachable_roster_valid (G : Game) :
  reachable G →
  ∀ p, p ∈ players G →
       (p_team p = "red" ∨ p_team p = "blue")
       ∧ p_name p ≠ "" ∧ PyStr.strip (p_name p) = p_name p.
Proof.
  intros Hreach p Hp.
  destruct (reachable_inv G Hreach) as [_ Htm].
  destruct (reachable_session_inv G Hreach) as (Hnm & _).
  split; [by apply Htm | by apply Hnm].
Qed.

Lemma reachable_roster_valid_witness :
  (p_team Sample.ann = "red" ∨ p_team Sample.ann = "blue")
  ∧ p_name Sample.ann ≠ "" ∧ PyStr.strip (p_name Sample.ann) = p_name Sample.ann.
Proof.
  apply (reachable_roster_valid Sample.played sample_played_reachable Sample.ann).
  apply list_elem_of_here.
Defined.

(** X8: in every reachable state with a round started, the roster has at
    least two players, both teams are present, there is a clue-giver, and
    [join] is turned away whatever the form. *)
Theorem reachable_started_has_clue_giver (G : Game) :
  reachable G → started G = true →
  (2 ≤ length (players G))%nat
  ∧ (∃ p, p ∈ players G ∧ p_team p = "red")
  ∧ (∃ p, p ∈ players G ∧ p_team p = "blue")
  ∧ (∃ cp, active_player G = Some cp ∧ cp ∈ players G)
  ∧ (∀ sess n t u, game_of (join G sess n t u) = G).
Proof.
  intros Hreach Hst.
  destruct (reachable_session_inv G Hreach) as (_ & _ & _ & Hok & _).
  destruct (Hok Hst) as [Hlen Hbt]. apply both_teams_spec in Hbt as [Hr Hb].
  repeat split; try assumption.
  - destruct (active_player_nonempty G) as [cp Hcp].
    + destruct (players G); [cbn in Hlen; lia | discriminate].
    + exists cp. split; [exact Hcp | by apply active_player_elem].
  - intros sess n t u. unfold join. by rewrite Hst.
Qed.

Lemma reachable_started_has_clue_giver_witness :
  (2 ≤ length (players Sample.played))%nat
  ∧ (∃ cp, active_player Sample.played = Some cp ∧ cp ∈ players Sample.played).
Proof.
  destruct (reachable_started_has_clue_giver Sample.played sample_played_reachable
              eq_refl) as (Hlen & _ & _ & Hcp & _).
  split; [exact Hlen | exact Hcp].
Defined.

(** X9: in every reachable state the turn index is a position of the
    roster, so the reduction modulo the roster's length changes nothing:
    the clue-giver is the player at [turn_index]; on an empty roster the
    index is 0. *)
Theorem reachable_turn_index_in_range (G : Game) :
  reachable G →
  (players G = [] → turn_index G = 0)
  ∧ (players G ≠ [] →
     0 ≤ turn_index G < Z.of_nat (length (players G))
     ∧ active_player G = players G !! Z.to_nat (turn_index G)).
Proof.
  intros Hreach.
  destruct (reachable_session_inv G Hreach) as (_ & [Ht0 Ht1] & _).
  split.
  - intros Hps. rewrite Hps in Ht1. cbn in Ht1. lia.
  - intros Hne.
    assert (0 < Z.of_nat (length (players G))) as Hlen.
    { destruct (players G); [congruence | cbn; lia]. }
    assert (0 ≤ turn_index G < Z.of_nat (length (players G))) as Hrange by lia.
    split; [exact Hrange|].
    unfold active_player. by rewrite Z.mod_small.
Qed.

Lemma reachable_turn_index_in_range_witness :
  0 ≤ turn_index Sample.played < Z.of_nat (length (players Sample.played))
  ∧ active_player Sample.played
    = players Sample.played !! Z.to_nat (turn_index Sample.played).
Proof.
  destruct (reachable_turn_index_in_range Sample.played sample_played_reachable)
    as [_ H].
  apply H. discriminate.
Defined.

(** X10: in every reachable state each word of the deck is the word of a
    card of the snapshot, every card of the snapshot is valid, the deck is
    no longer than the snapshot, and the pass counter is not negative. *)
Theorem reachable_deck_resolves (G : Game) :
  reachable G →
  (∀ w, w ∈ deck G → ∃ c, c ∈ cards G ∧ word c = w ∧ valid_card c)
  ∧ (∀ c, c ∈ cards G → valid_card c)
  ∧ (length (deck G) ≤ length (cards G))%nat
  ∧ 0 ≤ passes G.
Proof.
  intros Hreach.
  destruct (reachable_session_inv G Hreach) as (_ & _ & (Hd1 & Hd2 & Hd3) & _ & Hp).
  split; [|split; [exact Hd2 | split; [exact Hd3 | exact Hp]]].
  intros w Hw. destruct (Hd1 w Hw) as (c & Hc & Hwc). eauto.
Qed.

Lemma reachable_deck_resolves_witness :
  (∀ w, w ∈ deck Sample.played →
        ∃ c, c ∈ cards Sample.played ∧ word c = w ∧ valid_card c)
  ∧ (length (deck Sample.played) ≤ length (cards Sample.played))%nat.
Proof.
  destruct (reachable_deck_resolves Sample.played sample_played_reachable)
    as (Hd & _ & Hlen & _).
  split; [exact Hd | exact Hlen].
Defined.

Lemma find_word_some (cs : list Card) (w : string) :
  (∃ c, c ∈ cs ∧ word c = w) →
  ∃ c, List.find (fun c => String.eqb (word c) w) cs = Some c
       ∧ c ∈ cs ∧ word c = w.
Proof.
  intros (c0 & Hc0 & Hw0).
  destruct (List.find (fun c => String.eqb (word c) w) cs) as [c|] eqn:Hf.
  - apply find_some in Hf as [Hin Heq]. apply String.eqb_eq in Heq.
    exists c. by rewrite list_elem_of_In.
  - apply list_elem_of_In in Hc0.
    pose proof (find_none _ _ Hf c0 Hc0) as Hn. cbn in Hn.
    apply String.eqb_neq in Hn. congruence.
Qed.

(** X11: in a reachable state with a round started and a non-empty deck,
    [game] renders the page for every caller, changes neither [GAME] nor the
    cookie, and the context carries a valid card of the snapshot whose word
    is the front word of the deck. *)
Theorem game_page_has_card (G : Game) (sess : Session)
    (w : string) (rest : list string) :
  reachable G → started G = true → deck G = w :: rest →
  ∃ ctx c,
    game G sess = mkOutcome G sess (RenderGame ctx)
    ∧ card ctx = Some c ∧ word c = w ∧ c ∈ cards G ∧ valid_card c
    ∧ active_player G = Some (current_player ctx)
    ∧ ctx_scores ctx = scores G ∧ ctx_passes ctx = passes G
    ∧ ctx_time_limit ctx = time_limit G.
Proof.
  intros Hreach Hst Hdeck.
  destruct (reachable_started_has_clue_giver G Hreach Hst)
    as (_ & _ & _ & (cp & Hcp & _) & _).
  destruct (reachable_deck_resolves G Hreach) as (Hd & Hv & _).
  destruct (Hd w) as (c0 & Hc0 & Hw0 & _); [rewrite Hdeck; apply list_elem_of_here|].
  destruct (find_word_some (cards G) w) as (c & Hf & Hin & Hw); [eauto|].
  destruct (active_player_roster _ _ Hcp) as (p & ps & Hps).
  unfold game. rewrite Hst, Hps, Hdeck, Hcp. cbn. rewrite Hf.
  eexists _, c. split; [reflexivity|]. cbn.
  split; [reflexivity|]. split; [exact Hw|]. split; [exact Hin|].
  split; [by apply Hv|]. repeat split.
Qed.

Lemma game_page_has_card_witness :
  ∃ ctx c,
    game Sample.played (Sample.cookie Sample.bob)
    = mkOutcome Sample.played (Sample.cookie Sample.bob) (RenderGame ctx)
    ∧ card ctx = Some c ∧ word c = "apple".
Proof.
  destruct (game_page_has_card Sample.played (Sample.cookie Sample.bob) "apple"
              ["river"] sample_played_reachable eq_refl eq_refl)
    as (ctx & c & Hg & Hc & Hw & _).
  exists ctx, c. split; [exact Hg | split; [exact Hc | exact Hw]].
Defined.

(** ** Starting a round: the deal *)

(** X12: when the roster can start, the card file holds a valid card and
    the time limit is absent or an integer, [start_game] deals a deck that
    is a permutation of the words of the loaded cards (as long as the
    shuffle permutes), as long as the snapshot and not empty; the first
    player of the roster is the clue-giver, and roster and cookie are
    unchanged. *)
Theorem start_game_deals_catalog (G : Game) (sess : Session)
    (tl : option string) (raw : list RawEntry) (sh : list string → list string)
    (t : Z) :
  (∀ l, sh l ≡ₚ l) →
  (2 ≤ length (players G))%nat → both_teams G = true → load_cards raw ≠ [] →
  parse_time_limit tl = Some t →
  let out := start_game G sess tl raw sh in
  let G' := game_of out in
  cards G' = load_cards raw
  ∧ deck G' ≡ₚ word <$> cards G'
  ∧ length (deck G') = length (cards G')
  ∧ deck G' ≠ []
  ∧ players G' = players G
  ∧ active_player G' = head (players G)
  ∧ time_limit G' = t ∧ started G' = true
  ∧ session_of out = sess ∧ response out = Redirect ep_game.
Proof.
  intros Hsh Hlen Hbt Hcs Htl. cbv zeta. unfold start_game.
  apply Nat.ltb_ge in Hlen. rewrite Hlen, Hbt. cbn.
  destruct (load_cards raw) as [|c cs] eqn:Hload; [congruence|].
  rewrite Htl. cbn.
  split; [reflexivity|]. split; [apply Hsh|].
  split; [rewrite (Permutation_length (Hsh _)); cbn; by rewrite length_fmap|].
  split.
  { intros Hnil. pose proof (Permutation_length (Hsh (word c :: (word <$> cs)))) as Hl.
    rewrite Hnil in Hl. cbn in Hl. lia. }
  split; [reflexivity|]. split; [|repeat split].
  unfold active_player. cbn. rewrite Z.mod_0_l.
  - by rewrite head_lookup.
  - apply Nat.ltb_ge in Hlen. lia.
Qed.

Lemma start_game_deals_catalog_witness :
  let G := game_of (join (game_of (join GAME (mkSession None None)
                                     (Some "Ann") (Some "red") "a1"))
                      (mkSession None None) (Some "Bob") (Some "blue") "b1") in
  let G' := game_of (start_game G (Sample.cookie Sample.bob) (Some " 90 ")
                       Sample.catalog (@rev string)) in
  deck G' ≡ₚ word <$> cards G'
  ∧ active_player G' = Some Sample.ann
  ∧ time_limit G' = 90.
Proof.
  cbv zeta.
  assert (∀ l : list string, rev l ≡ₚ l) as Hsh
    by (intros l; symmetry; apply Permutation_rev).
  assert (load_cards Sample.catalog ≠ []) as Hcs by discriminate.
  destruct (start_game_deals_catalog
              (game_of (join (game_of (join GAME (mkSession None None)
                                         (Some "Ann") (Some "red") "a1"))
                          (mkSession None None) (Some "Bob") (Some "blue") "b1"))
              (Sample.cookie Sample.bob) (Some " 90 ") Sample.catalog (@rev string)
              90 Hsh (le_n 2) eq_refl Hcs eq_refl)
    as (_ & Hperm & _ & _ & _ & Hact & Htl & _).
  split; [exact Hperm | split; [exact Hact | exact Htl]].
Defined.

(** ** Handing the turn over *)

Lemma pass_turn_eq (G : Game) :
  players G ≠ [] →
  pass_turn G =
  {| players := players G; deck := deck G; cards := cards G;
     scores := scores G; passes := passes G;
     turn_index := (turn_index G + 1) `mod` Z.of_nat (length (players G));
     time_limit := time_limit G; started := started G |}.
Proof.
  intros Hne. destruct (active_player_nonempty G Hne) as [cp Hcp].
  unfold pass_turn, next_turn, clue_giver_cookie.
  destruct (players G) as [|p ps] eqn:Hps; [congruence|].
  rewrite Hcp. unfold not_requester. cbn. by rewrite String.eqb_refl.
Qed.

Lemma pass_turn_iter (G : Game) (k : nat) :
  players G ≠ [] →
  let Gk := Nat.iter k pass_turn G in
  players Gk = players G ∧ deck Gk = deck G ∧ cards Gk = cards G
  ∧ scores Gk = scores G ∧ passes Gk = passes G
  ∧ time_limit Gk = time_limit G ∧ started Gk = started G
  ∧ turn_index Gk `mod` Z.of_nat (length (players G))
    = (turn_index G + Z.of_nat k) `mod` Z.of_nat (length (players G)).
Proof.
  intros Hne. cbv zeta. induction k as [|k IH].
  - cbn. rewrite Z.add_0_r. repeat split.
  - destruct IH as (Hp & Hd & Hc & Hs & Hpa & Htl & Hst & Hti).
    rewrite Nat.iter_succ, pass_turn_eq by (by rewrite Hp). cbn.
    rewrite Hp. repeat split; try assumption.
    assert (Z.of_nat (length (players G)) ≠ 0) as Hn.
    { destruct (players G); [congruence | cbn; lia]. }
    rewrite Z.mod_mod by exact Hn.
    rewrite <- Z.add_mod_idemp_l by exact Hn. rewrite Hti.
    rewrite Z.add_mod_idemp_l by exact Hn. f_equal. lia.
Qed.

(** X13: when the clue-giver hands the turn over, the turn index becomes
    the next position of the roster, wrapping around at its end, and
    nothing else changes; after as many hand-overs as there are players the
    first clue-giver has the turn again. *)
Theorem pass_turn_goes_round (G : Game) :
  players G ≠ [] →
  turn_index (pass_turn G)
  = (turn_index G + 1) `mod` Z.of_nat (length (players G))
  ∧ players (pass_turn G) = players G ∧ deck (pass_turn G) = deck G
  ∧ cards (pass_turn G) = cards G ∧ scores (pass_turn G) = scores G
  ∧ passes (pass_turn G) = passes G ∧ time_limit (pass_turn G) = time_limit G
  ∧ started (pass_turn G) = started G
  ∧ active_player (Nat.iter (length (players G)) pass_turn G) = active_player G.
Proof.
  intros Hne. rewrite pass_turn_eq by exact Hne. cbn.
  repeat split.
  destruct (pass_turn_iter G (length (players G)) Hne) as (Hp & _ & _ & _ & _ & _ & _ & Hti).
  unfold active_player. rewrite Hp, Hti.
  replace (turn_index G + Z.of_nat (length (players G)))
    with (turn_index G + 1 * Z.of_nat (length (players G))) by lia.
  by rewrite Z_mod_plus_full.
Qed.

Lemma pass_turn_goes_round_witness :
  turn_index (pass_turn Sample.round) = 1
  ∧ active_player (Nat.iter 3 pass_turn Sample.round) = Some Sample.ann.
Proof.
  assert (players Sample.round ≠ []) as Hne by discriminate.
  destruct (pass_turn_goes_round Sample.round Hne) as (Hti & _ & _ & _ & _ & _ & _ & _ & Hact).
  split; [exact Hti | exact Hact].
Defined.

(** ** Resetting *)

(** X14: [reset] brings [GAME] back to its initial value from any state
    and empties the caller's cookie.  After it no cookie resolves to a
    user, [game], [action] and [next_turn] send every caller to the index
    page without changing anything, and [start_game] is rejected for lack
    of players. *)
Theorem reset_forgets_everyone (G : Game) (sess sess' : Session)
    (a tl : option string) (raw : list RawEntry)
    (sh : list string → list string) :
  let G0 := game_of (reset G sess) in
  G0 = GAME
  ∧ session_of (reset G sess) = {| player_id := None; error := None |}
  ∧ get_current_user G0 sess' = None
  ∧ game G0 sess' = mkOutcome G0 sess' (Redirect ep_index)
  ∧ action G0 sess' a = mkOutcome G0 sess' (Redirect ep_index)
  ∧ next_turn G0 sess' = mkOutcome G0 sess' (Redirect ep_index)
  ∧ start_error (start_game G0 sess' tl raw sh) = Some NotEnoughPlayers
  ∧ game_of (start_game G0 sess' tl raw sh) = G0.
Proof.
  cbv zeta. cbn. repeat split.
  unfold get_current_user. cbn.
  destruct (player_id sess') as [pid|]; [|reflexivity].
  by destruct (nonempty pid).
Qed.

(** ** The index page *)

(** X15: [index] leaves [GAME] alone, shows the message of the cookie and
    removes it, keeping the [player_id].  Its [can_start] flag agrees with
    [start_game]: given a card file with a valid card and no time limit in
    the form, the flag is set exactly when [start_game] starts the round. *)
Theorem index_can_start_agrees (G : Game) (sess : Session)
    (raw : list RawEntry) (sh : list string → list string) :
  load_cards raw ≠ [] →
  ∃ ctx,
    index G sess
    = mkOutcome G {| player_id := player_id sess; error := None |} (RenderIndex ctx)
    ∧ ix_error ctx = error sess
    ∧ ix_players ctx = players G ∧ ix_started ctx = started G
    ∧ ix_time_limit ctx = time_limit G
    ∧ ix_current_user ctx = get_current_user G sess
    ∧ (ix_can_start ctx = true ↔
       response (start_game G sess None raw sh) = Redirect ep_game)
    ∧ (ix_can_start ctx = true ↔
       (2 ≤ length (players G))%nat
       ∧ (∃ p, p ∈ players G ∧ p_team p = "red")
       ∧ (∃ p, p ∈ players G ∧ p_team p = "blue")).
Proof.
  intros Hcs. eexists. split; [reflexivity|].
  cbn [ix_error ix_players ix_started ix_time_limit ix_current_user ix_can_start].
  do 5 (split; [reflexivity|]).
  split.
  - unfold start_game.
    destruct (length (players G) <? 2)%nat eqn:Hlen.
    + apply Nat.ltb_lt in Hlen.
      assert ((2 <=? length (players G))%nat = false) as -> by (apply Nat.leb_gt; lia).
      cbn. split; discriminate.
    + apply Nat.ltb_ge in Hlen.
      assert ((2 <=? length (players G))%nat = true) as -> by (by apply Nat.leb_le).
      cbn. destruct (both_teams G); cbn; [|split; discriminate].
      destruct (load_cards raw); [congruence|]. cbn. split; reflexivity.
  - rewrite andb_true_iff, Nat.leb_le, both_teams_spec. tauto.
Qed.

Lemma index_can_start_agrees_witness :
  ∃ ctx,
    response (index Sample.round (Sample.cookie Sample.cat)) = RenderIndex ctx
    ∧ ix_can_start ctx = true.
Proof.
  assert (load_cards Sample.catalog ≠ []) as Hcs by discriminate.
  destruct (index_can_start_agrees Sample.round (Sample.cookie Sample.cat)
              Sample.catalog (fun l => l) Hcs) as (ctx & Hix & _ & _ & _ & _ & _ & Hcan & _).
  exists ctx. split; [by rewrite Hix|]. apply Hcan. reflexivity.
Defined.

(** ** Runs of actions *)

Lemma score_insert (sc : gmap string Z) (k t : string) (v : Z) :
  score (<[k := v]> sc) t = if decide (k = t) then v else score sc t.
Proof.
  unfold score. destruct (decide (k = t)) as [-> | Hne].
  - by rewrite lookup_insert_eq.
  - by rewrite lookup_insert_ne.
Qed.

Lemma action_step_bounds (G : Game) (sess : Session) (a : option string) :
  scores_ok G →
  let G' := game_of (action G sess a) in
  players G' = players G ∧ cards G' = cards G
  ∧ turn_index G' = turn_index G ∧ time_limit G' = time_limit G
  ∧ started G' = started G
  ∧ (length (deck G') ≤ length (deck G))%nat
  ∧ (∀ w, w ∈ deck G' → w ∈ deck G)
  ∧ passes G ≤ passes G' ≤ passes G + 1
  ∧ (∀ t, score (scores G') t ≤ score (scores G) t + 1).
Proof.
  intros Hsc. cbv zeta.
  destruct (action_cases G sess a) as [-> | (cp & w & rest & _ & Hdeck & ->)].
  { repeat split; auto; lia. }
  pose proof (apply_action_frame G cp w rest a) as (H1 & H2 & H3 & H4 & H5 & H6 & H7).
  cbv zeta in *. rewrite Hdeck.
  split; [exact H1|]. split; [exact H2|]. split; [exact H3|].
  split; [exact H4|]. split; [exact H5|].
  split; [|split; [|split]].
  - destruct H6 as [-> | ->]; [cbn; lia|]. rewrite length_app. cbn. lia.
  - intros x Hx. destruct H6 as [H6|H6]; rewrite H6 in Hx.
    + by apply list_elem_of_further.
    + apply elem_of_app in Hx as [Hx|Hx]; [by apply list_elem_of_further|].
      apply list_elem_of_singleton in Hx. subst x. apply list_elem_of_here.
  - destruct H7 as [-> | ->]; lia.
  - intros t. pose proof (score_non_negative G (p_team cp) Hsc) as Hnn.
    unfold apply_action.
    destruct (is_action a "correct"); [|destruct (is_action a "taboo");
      [|destruct (is_action a "pass")]]; cbn; try lia;
      rewrite score_insert; case_decide; subst; lia.
Qed.

(** X16: from a reachable state, a run of [action] requests from any
    callers never changes roster, snapshot, turn index, time limit or
    [started]; the deck does not grow and holds only words it held before;
    the pass counter and each team's score rise by at most one per
    request, and the pass counter never falls. *)
Theorem run_actions_bounds (G : Game) (calls : list (Session * option string)) :
  reachable G →
  let G' := run_actions G calls in
  players G' = players G ∧ cards G' = cards G
  ∧ turn_index G' = turn_index G ∧ time_limit G' = time_limit G
  ∧ started G' = started G
  ∧ (length (deck G') ≤ length (deck G))%nat
  ∧ (∀ w, w ∈ deck G' → w ∈ deck G)
  ∧ passes G ≤ passes G' ≤ passes G + Z.of_nat (length calls)
  ∧ (∀ t, score (scores G') t ≤ score (scores G) t + Z.of_nat (length calls)).
Proof.
  cbv zeta. revert G.
  induction calls as [|[sess a] calls IH]; intros G Hreach.
  { cbn. repeat split; auto; lia. }
  pose proof (reach_step G sess (ReqAction a) Hreach I) as Hreach'.
  cbn [handle] in Hreach'.
  destruct (reachable_inv G Hreach) as [Hsc _].
  pose proof (action_step_bounds G sess a Hsc)
    as (A1 & A2 & A3 & A4 & A5 & A6 & A7 & A8 & A9).
  destruct (IH _ Hreach') as (B1 & B2 & B3 & B4 & B5 & B6 & B7 & B8 & B9).
  cbv zeta in *. cbn [run_actions length].
  split; [congruence|]. split; [congruence|]. split; [congruence|].
  split; [congruence|]. split; [congruence|].
  split; [lia|]. split; [auto|]. split; [lia|].
  intros t. specialize (A9 t). specialize (B9 t). lia.
Qed.

Lemma run_actions_bounds_witness :
  let G' := run_actions Sample.played
              [(Sample.cookie Sample.ann, Some "correct");
               (Sample.cookie Sample.bob, Some "taboo")] in
  (length (deck G') ≤ length (deck Sample.played))%nat
  ∧ started G' = started Sample.played
  ∧ ∀ t, score (scores G') t ≤ score (scores Sample.played) t + 2.
Proof.
  destruct (run_actions_bounds Sample.played
              [(Sample.cookie Sample.ann, Some "correct");
               (Sample.cookie Sample.bob, Some "taboo")] sample_played_reachable)
    as (_ & _ & _ & _ & Hst & Hlen & _ & _ & Hsc).
  split; [exact Hlen | split; [exact Hst | exact Hsc]].
Defined.

Lemma is_clue_giver_apply_action (G : Game) (sess : Session) (cp cp' : Player)
    (w : string) (rest : list string) (a : option string) :
  is_clue_giver G sess cp → is_clue_giver (apply_action G cp' w rest a) sess cp.
Proof.
  intros [Hact Hid]. split; [|exact Hid].
  pose proof (apply_action_frame G cp' w rest a) as (H1 & _ & H3 & _).
  cbv zeta in *. unfold active_player. rewrite H1, H3. exact Hact.
Qed.

(** X17: [k] "correct" actions in a row by the clue-giver, with at least
    [k] words in the deck, drop the first [k] words, add exactly [k] to the
    score of the clue-giver's team and leave the other scores and the pass
    counter as they were. *)
Theorem correct_run_scores (k : nat) (G : Game) (sess : Session) (cp : Player) :
  is_clue_giver G sess cp → (k ≤ length (deck G))%nat →
  let G' := run_actions G (replicate k (sess, Some "correct")) in
  deck G' = drop k (deck G)
  ∧ score (scores G') (p_team cp) = score (scores G) (p_team cp) + Z.of_nat k
  ∧ (∀ t, t ≠ p_team cp → scores G' !! t = scores G !! t)
  ∧ passes G' = passes G.
Proof.
  cbv zeta. revert G. induction k as [|k IH]; intros G Hcg Hk.
  { cbn. rewrite Z.add_0_r. repeat split. }
  destruct (deck G) as [|w rest] eqn:Hdeck; [cbn in Hk; lia|].
  cbn [replicate run_actions].
  rewrite (action_clue_giver G sess cp w rest _ Hcg Hdeck). cbn [game_of].
  pose proof (is_clue_giver_apply_action G sess cp cp w rest (Some "correct") Hcg)
    as Hcg'.
  destruct (IH _ Hcg') as (Hd & Hs & Ho & Hp).
  { cbn. cbn in Hk. lia. }
  assert (scores (apply_action G cp w rest (Some "correct"))
          = <[p_team cp := score (scores G) (p_team cp) + 1]> (scores G)) as Hsc1
    by reflexivity.
  split; [rewrite Hd; reflexivity|].
  split; [|split; [|rewrite Hp; reflexivity]].
  - rewrite Hs, Hsc1, score_insert. case_decide; [lia | congruence].
  - intros t Ht. rewrite (Ho t Ht), Hsc1. by rewrite lookup_insert_ne.
Qed.

Lemma correct_run_scores_witness :
  let G' := run_actions Sample.round
              (replicate 2 (Sample.cookie Sample.ann, Some "correct")) in
  deck G' = [] ∧ score (scores G') "red" = score (scores Sample.round) "red" + 2.
Proof.
  assert (is_clue_giver Sample.round (Sample.cookie Sample.ann) Sample.ann) as Hcg
    by (split; reflexivity).
  destruct (correct_run_scores 2 Sample.round (Sample.cookie Sample.ann) Sample.ann
              Hcg (le_n 2)) as (Hd & Hs & _).
  split; [exact Hd | exact Hs].
Defined.

(** X18: [k] "pass" actions in a row by the clue-giver rotate the deck by
    [k] places and add [k] to the pass counter, scores untouched; passing
    on every word of the deck once brings the deck back to its order. *)
Theorem pass_run_rotates (k : nat) (G : Game) (sess : Session) (cp : Player) :
  is_clue_giver G sess cp → (k ≤ length (deck G))%nat →
  let G' := run_actions G (replicate k (sess, Some "pass")) in
  deck G' = (drop k (deck G) ++ take k (deck G))%list
  ∧ passes G' = passes G + Z.of_nat k
  ∧ scores G' = scores G
  ∧ (k = length (deck G) → deck G' = deck G).
Proof.
  intros Hcg Hk. cbv zeta.
  assert (deck (run_actions G (replicate k (sess, Some "pass")))
          = (drop k (deck G) ++ take k (deck G))%list
          ∧ passes (run_actions G (replicate k (sess, Some "pass")))
            = passes G + Z.of_nat k
          ∧ scores (run_actions G (replicate k (sess, Some "pass"))) = scores G)
    as (Hd & Hp & Hs).
  { revert G Hcg Hk. induction k as [|k IH]; intros G Hcg Hk.
    { cbn. rewrite Z.add_0_r, app_nil_r. repeat split. }
    destruct (deck G) as [|w rest] eqn:Hdeck; [cbn in Hk; lia|].
    cbn [replicate run_actions].
    rewrite (action_clue_giver G sess cp w rest _ Hcg Hdeck). cbn [game_of].
    pose proof (is_clue_giver_apply_action G sess cp cp w rest (Some "pass") Hcg)
      as Hcg'.
    cbn in Hk.
    destruct (IH _ Hcg') as (Hd & Hp & Hs).
    { cbn. rewrite length_app. cbn. lia. }
    assert (deck (apply_action G cp w rest (Some "pass")) = (rest ++ [w])%list)
      as Hd1 by reflexivity.
    assert (passes (apply_action G cp w rest (Some "pass")) = passes G + 1)
      as Hp1 by reflexivity.
    split; [|split; [rewrite Hp, Hp1; lia | rewrite Hs; reflexivity]].
    rewrite Hd, Hd1. rewrite drop_app_le, take_app_le by lia.
    rewrite <- app_assoc. reflexivity. }
  repeat split; try assumption.
  intros ->. rewrite Hd. by rewrite drop_all, take_ge.
Qed.

Lemma pass_run_rotates_witness :
  deck (run_actions Sample.round
          (replicate 2 (Sample.cookie Sample.ann, Some "pass")))
  = deck Sample.round
  ∧ passes (run_actions Sample.round
              (replicate 2 (Sample.cookie Sample.ann, Some "pass")))
    = passes Sample.round + 2.
Proof.
  assert (is_clue_giver Sample.round (Sample.cookie Sample.ann) Sample.ann) as Hcg
    by (split; reflexivity).
  destruct (pass_run_rotates 2 Sample.round (Sample.cookie Sample.ann) Sample.ann
              Hcg (le_n 2)) as (_ & Hp & _ & Hd).
  split; [exact (Hd eq_refl) | exact Hp].
Defined.

(** ** Which handler writes which field *)

(** X19: the roster changes only through [join] and [reset]; the turn
    index only through [next_turn], [start_game] and [reset]; the card
    snapshot, the time limit and [started] only through [start_game] and
    [reset]; deck, scores and pass counter only through [action],
    [start_game] and [reset].  [index] and [game] change nothing. *)
Theorem handlers_write_frame (G : Game) (sess : Session) (r : Request) :
  let G' := game_of (handle G sess r) in
  match r with
  | ReqJoin _ _ _ | ReqReset => True
  | _ => players G' = players G
  end
  ∧ match r with
    | ReqNextTurn | ReqStart _ _ _ | ReqReset => True
    | _ => turn_index G' = turn_index G
    end
  ∧ match r with
    | ReqStart _ _ _ | ReqReset => True
    | _ => cards G' = cards G ∧ time_limit G' = time_limit G
           ∧ started G' = started G
    end
  ∧ match r with
    | ReqAction _ | ReqStart _ _ _ | ReqReset => True
    | _ => deck G' = deck G ∧ scores G' = scores G ∧ passes G' = passes G
    end
  ∧ match r with
    | ReqIndex | ReqGame => G' = G
    | _ => True
    end.
Proof.
  cbv zeta. destruct r as [|n t u|tl raw sh| |a| |]; cbn [handle].
  - repeat split.
  - destruct (join_cases G sess n t u) as [-> | (_ & p & _ & _ & _ & ->)];
      repeat split.
  - destruct (start_game_cases G sess tl raw sh)
      as [-> | (_ & _ & _ & t & st & _ & ->)]; repeat split.
  - rewrite (proj1 (game_keeps_game G sess)). repeat split.
  - destruct (action_cases G sess a) as [-> | (cp & w & rest & _ & _ & ->)];
      [repeat split|].
    pose proof (apply_action_frame G cp w rest a) as (H1 & H2 & H3 & H4 & H5 & _).
    cbv zeta in *. repeat split; assumption.
  - destruct (next_turn_cases G sess) as [-> | (_ & _ & ->)]; repeat split.
  - repeat split.
Qed.

(** X20: [k] "taboo" actions in a row by the clue-giver, with at least [k]
    words in the deck and a non-negative score to start from, drop the
    first [k] words and leave the team with [max 0 (score - k)]: the score
    stops at zero; the other scores and the pass counter are untouched. *)
Theorem taboo_run_floors (k : nat) (G : Game) (sess : Session) (cp : Player) :
  is_clue_giver G sess cp → (k ≤ length (deck G))%nat →
  0 ≤ score (scores G) (p_team cp) →
  let G' := run_actions G (replicate k (sess, Some "taboo")) in
  deck G' = drop k (deck G)
  ∧ score (scores G') (p_team cp)
    = Z.max 0 (score (scores G) (p_team cp) - Z.of_nat k)
  ∧ (∀ t, t ≠ p_team cp → scores G' !! t = scores G !! t)
  ∧ passes G' = passes G.
Proof.
  cbv zeta. revert G. induction k as [|k IH]; intros G Hcg Hk Hnn.
  { cbn. rewrite Z.sub_0_r, Z.max_r by lia. repeat split. }
  destruct (deck G) as [|w rest] eqn:Hdeck; [cbn in Hk; lia|].
  cbn [replicate run_actions].
  rewrite (action_clue_giver G sess cp w rest _ Hcg Hdeck). cbn [game_of].
  pose proof (is_clue_giver_apply_action G sess cp cp w rest (Some "taboo") Hcg)
    as Hcg'.
  assert (scores (apply_action G cp w rest (Some "taboo"))
          = <[p_team cp := Z.max 0 (score (scores G) (p_team cp) - 1)]> (scores G))
    as Hsc1 by reflexivity.
  assert (score (scores (apply_action G cp w rest (Some "taboo"))) (p_team cp)
          = Z.max 0 (score (scores G) (p_team cp) - 1)) as Hs1.
  { rewrite Hsc1, score_insert. case_decide; [reflexivity | congruence]. }
  destruct (IH _ Hcg') as (Hd & Hs & Ho & Hp).
  { cbn. cbn in Hk. lia. }
  { rewrite Hs1. lia. }
  split; [rewrite Hd; reflexivity|].
  split; [|split; [|rewrite Hp; reflexivity]].
  - rewrite Hs, Hs1. lia.
  - intros t Ht. rewrite (Ho t Ht), Hsc1. by rewrite lookup_insert_ne.
Qed.

Lemma taboo_run_floors_witness :
  let G' := run_actions Sample.last_card
              (replicate 1 (Sample.cookie Sample.bob, Some "taboo")) in
  deck G' = []
  ∧ score (scores G') "blue" = Z.max 0 (score (scores Sample.last_card) "blue" - 1).
Proof.
  assert (is_clue_giver Sample.last_card (Sample.cookie Sample.bob) Sample.bob)
    as Hcg by (split; reflexivity).
  assert (0 ≤ score (scores Sample.last_card) (p_team Sample.bob)) as Hnn
    by (vm_compute; discriminate).
  destruct (taboo_run_floors 1 Sample.last_card (Sample.cookie Sample.bob)
              Sample.bob Hcg (le_n 1) Hnn) as (Hd & Hs & _).
  split; [exact Hd | exact Hs].
Defined.
